(** * kepler.gl point layer: [src/layers/point-layer/point-layer.js]

    A shallow embedding of the point layer's data pipeline
    ([pointPosAccessor], [pointPosResolver], [pointLabelAccessor],
    [pointLabelResolver], the two memoized accessors built in the
    constructor, [formatLayerData], [updateLayerMeta] and [renderLayer])
    and the properties its specification states about them.

    JavaScript specifics that the properties depend on are kept explicit:
    - a cell of a row is a primitive value; [Number.isFinite] holds of
      finite numbers only (not of strings, [null], [undefined], [NaN] or
      the infinities);
    - reading an index that an array does not have gives [undefined];
      reading a property of [undefined] throws a [TypeError];
    - every function and array that is created has an identity of its own
      ([===] compares identities), so closures and arrays carry the
      reference they were allocated at. *)

From Stdlib Require Import QArith_base Ascii String.
From stdpp Require Import gmap strings list pretty.

Local Open Scope Z_scope.

(** ** JavaScript values *)

(** A double: the three non-finite values and the finite ones. The layer
    never computes with a cell, it only tests finiteness and prints, so a
    finite double is kept as the rational it denotes. *)
Inductive number : Type :=
  | NaN
  | Infinity
  | NegInfinity
  | Finite (q : Q).

Inductive value : Type :=
  | VUndefined
  | VNull
  | VBool (b : bool)
  | VNumber (n : number)
  | VString (s : string).

Definition num (z : Z) : value := VNumber (Finite (inject_Z z)).

(** [Number.isFinite(v)]: no coercion, [false] for every non-number. *)
Definition Number_isFinite (v : value) : bool :=
  match v with
  | VNumber (Finite _) => true
  | _ => false
  end.

(** A row of the table is an array of cells. *)
Definition Row : Type := list value.

(** [row[i]] for an integer [i]: [undefined] outside the array. *)
Definition getIdx (row : Row) (i : Z) : value :=
  if decide (0 ≤ i) then default VUndefined (row !! Z.to_nat i) else VUndefined.

(** The objects handed to deck.gl: [{data: row}]. *)
Module Datum.
Record t : Type := { data : Row }.
End Datum.

(** An array with its identity. *)
Record Arr (A : Type) : Type := { arr_ref : nat; items : list A }.
Arguments arr_ref {A} _.
Arguments items {A} _.

(** A color is an [[r, g, b]] array. *)
Definition Color : Type := list Z.

(** What a channel accessor yields: a radius or a color. *)
Inductive ChannelValue : Type :=
  | CNumber (n : number)
  | CColor (c : Color).

(** ** Column bindings and the two accessor factories *)

Record Column : Type := {
  col_value : option string;
  fieldIdx : Z;
  optional : bool
}.

(** [config.columns]; [altitude] may be missing, which both
    [pointPosAccessor] and [pointPosResolver] test for. *)
Record Columns : Type := {
  lat : Column;
  lng : Column;
  altitude : option Column
}.

(** [pointPosAccessor({lat, lng, altitude})(d)] *)
Definition pointPosAccessor (cols : Columns) (d : Datum.t) : list value :=
  [ (* lng *) getIdx (Datum.data d) (fieldIdx (lng cols));
    (* lat *) getIdx (Datum.data d) (fieldIdx (lat cols));
    (* altitude *)
    match altitude cols with
    | Some alt =>
        if decide (fieldIdx alt > -1) then getIdx (Datum.data d) (fieldIdx alt)
        else num 0
    | None => num 0
    end ].

(** [pointPosResolver]: the template string
    [`${lat.fieldIdx}-${lng.fieldIdx}-${altitude ? altitude.fieldIdx : 'z'}`] *)
Definition pointPosResolver (cols : Columns) : string :=
  pretty (fieldIdx (lat cols)) +:+ "-" +:+ pretty (fieldIdx (lng cols)) +:+ "-" +:+
  match altitude cols with
  | Some alt => pretty (fieldIdx alt)
  | None => "z"
  end.

Record LabelField : Type := {
  field_name : string;
  tableFieldIndex : Z
}.

Record TextLabel : Type := {
  field : option LabelField;
  label_color : Color;
  label_size : Z;
  label_offset : list Z;
  label_anchor : string
}.

(** [pointLabelResolver]: [textLabel.field && textLabel.field.tableFieldIndex] *)
Definition pointLabelResolver (textLabel : TextLabel) : option Z :=
  tableFieldIndex <$> field textLabel.

(** Closures with their identity and the binding they captured. *)
Record PosAccessor : Type := { pos_ref : nat; pos_env : Columns }.
Record TextAccessor : Type := { text_ref : nat; text_env : TextLabel }.

Definition applyPos (f : PosAccessor) (d : Datum.t) : list value :=
  pointPosAccessor (pos_env f) d.

(** A deck.gl accessor prop: a constant, used for every object, or a
    function of the object. *)
Inductive Accessor : Type :=
  | Constant (v : ChannelValue)
  | Function (f : Datum.t → ChannelValue).

Definition applyAccessor (a : Accessor) (d : Datum.t) : ChannelValue :=
  match a with
  | Constant v => v
  | Function f => f d
  end.

(** The object [formatLayerData] returns. *)
Module LayerData.
Record t : Type := {
  data : Arr Datum.t;
  labelCharacterSet : Arr ascii;
  getPosition : PosAccessor;
  getFillColor : Accessor;
  getLineColor : Accessor;
  getRadius : Accessor;
  getText : TextAccessor
}.
End LayerData.

(** [opt], [{}] by default: a missing [sameData] is falsy. *)
Record Options : Type := { sameData : bool }.

(** ** Library functions on arrays and strings *)

(** [array.reduce(f, init)] with a callback that may throw. *)
Fixpoint reduce {A B} (f : B → A → option B) (l : list A) (accu : B) : option B :=
  match l with
  | [] => Some accu
  | x :: l' => accu' ← f accu x; reduce f l' accu'
  end.

(** [array.map(f)] with a callback that may throw. *)
Fixpoint map_throw {A B} (f : A → option B) (l : list A) : option (list B) :=
  match l with
  | [] => Some []
  | x :: l' => y ← f x; ys ← map_throw f l'; Some (y :: ys)
  end.

(** [strings.join('')] *)
Definition join (l : list string) : string := foldr String.append EmptyString l.

(** lodash [uniq] on a string: its characters, each kept where it occurs
    first. The result is a new array. *)
Definition uniq (s : string) : list ascii :=
  foldl (λ result c, if decide (c ∈ result) then result else result ++ [c])
        [] (list_ascii_of_string s).

(** What deck.gl reports under the pointer; [null] when nothing is. *)
Record ObjectInfo : Type := {
  object : Datum.t;
  picked : bool;
  picked_layer : option string
}.

(** ** What the layer takes from its base class and from its imports

    [base-layer.js], [utils/color-utils] and the arithmetic and number
    printer of the JavaScript engine are not part of this file; the layer
    is verified for any implementation of them. *)
Class BaseLayer : Type := {
  VisField : Type;
  Domain : Type;
  Scale : Type;
  Bounds : Type;
  Meta : Type;
  MapState : Type;
  LayerInteraction : Type;
  (** [String(x)] for a finite number *)
  finiteToString : Q → string;
  hexToRgb : string → Color;
  (** [this.getVisChannelScale(scale, domain, range, fixed)]: a d3 scale,
      always an object *)
  getVisChannelScale : string → Domain → list Color + list number → option bool → Scale;
  getEncodedChannelValue : Scale → Row → option VisField → ChannelValue;
  getPointsBounds : list Row → (Row → list value) → Bounds;
  (** [this.updateMeta({bounds})] *)
  updateMeta : Meta → Bounds → Meta;
  getRadiusScaleByZoom : MapState → number;
  (** [this.isLayerHovered(objectHovered)], for the layer of this id *)
  isLayerHovered : string → option ObjectInfo → bool;
  (** [x * y] on doubles *)
  times : number → number → number
}.

Section PointLayer.
Context `{BL : BaseLayer}.

(** [String(v)] *)
Definition String_of (v : value) : string :=
  match v with
  | VUndefined => "undefined"
  | VNull => "null"
  | VBool true => "true"
  | VBool false => "false"
  | VNumber NaN => "NaN"
  | VNumber Infinity => "Infinity"
  | VNumber NegInfinity => "-Infinity"
  | VNumber (Finite q) => finiteToString q
  | VString s => s
  end.

(** [pointLabelAccessor(textLabel)(d)]:
    [String(d.data[textLabel.field.tableFieldIndex - 1])]; a [TypeError]
    ([None]) when [textLabel.field] is [null]. *)
Definition pointLabelAccessor (textLabel : TextLabel) (d : Datum.t) : option string :=
  f ← field textLabel;
  Some (String_of (getIdx (Datum.data d) (tableFieldIndex f - 1))).

Definition applyText (g : TextAccessor) (d : Datum.t) : option string :=
  pointLabelAccessor (text_env g) d.

(** ** Configuration and layer state *)

Record ColorRange : Type := { colors : list string }.

Record VisConfig : Type := {
  radius : number;
  fixedRadius : bool;
  opacity : number;
  outline : bool;
  thickness : number;
  strokeColor : option Color;
  colorRange : ColorRange;
  strokeColorRange : ColorRange;
  radiusRange : list number;
  filled : bool
}.

Record Config : Type := {
  columns : Columns;
  color : Color;
  highlightColor : Color;
  colorField : option VisField;
  colorScale : string;
  colorDomain : Domain;
  strokeColorField : option VisField;
  strokeColorScale : string;
  strokeColorDomain : Domain;
  sizeField : option VisField;
  sizeScale : string;
  sizeDomain : Domain;
  textLabel : TextLabel;
  visConfig : VisConfig
}.

(** The layer instance [this], together with the allocation counter of the
    heap it lives in.
    - [getPosition], [getText]: the caches of the two [memoize]d functions
      of the constructor, keyed by what their resolvers return;
    - [nextRef]: the identity the next created closure or array gets;
    - [metaCalls]: a history of the calls of [updateLayerMeta] (newest
      first), each with the dataset it scanned and the accessor it used. *)
Record Layer : Type := {
  id : string;
  config : Config;
  meta : Meta;
  getPosition_cache : gmap string PosAccessor;
  getText_cache : gmap (option Z) TextAccessor;
  nextRef : nat;
  metaCalls : list (list Row * PosAccessor)
}.

Definition set_config (c : Config) (L : Layer) : Layer :=
  {| id := id L; config := c; meta := meta L;
     getPosition_cache := getPosition_cache L; getText_cache := getText_cache L;
     nextRef := nextRef L; metaCalls := metaCalls L |}.

Definition set_getPosition_cache (c : gmap string PosAccessor) (L : Layer) : Layer :=
  {| id := id L; config := config L; meta := meta L;
     getPosition_cache := c; getText_cache := getText_cache L;
     nextRef := nextRef L; metaCalls := metaCalls L |}.

Definition set_getText_cache (c : gmap (option Z) TextAccessor) (L : Layer) : Layer :=
  {| id := id L; config := config L; meta := meta L;
     getPosition_cache := getPosition_cache L; getText_cache := c;
     nextRef := nextRef L; metaCalls := metaCalls L |}.

Definition set_nextRef (n : nat) (L : Layer) : Layer :=
  {| id := id L; config := config L; meta := meta L;
     getPosition_cache := getPosition_cache L; getText_cache := getText_cache L;
     nextRef := n; metaCalls := metaCalls L |}.

(** [this.updateMeta({bounds})], noted in the history. *)
Definition set_bounds (allData : list Row) (getPosition : PosAccessor)
    (bounds : Bounds) (L : Layer) : Layer :=
  {| id := id L; config := config L; meta := updateMeta (meta L) bounds;
     getPosition_cache := getPosition_cache L; getText_cache := getText_cache L;
     nextRef := nextRef L; metaCalls := (allData, getPosition) :: metaCalls L |}.

Definition set_columns (cols : Columns) (c : Config) : Config :=
  {| columns := cols; color := color c; highlightColor := highlightColor c;
     colorField := colorField c; colorScale := colorScale c;
     colorDomain := colorDomain c; strokeColorField := strokeColorField c;
     strokeColorScale := strokeColorScale c;
     strokeColorDomain := strokeColorDomain c; sizeField := sizeField c;
     sizeScale := sizeScale c; sizeDomain := sizeDomain c;
     textLabel := textLabel c; visConfig := visConfig c |}.

(** [new PointLayer(props)]: two empty caches. *)
Definition newLayer (i : string) (c : Config) (m : Meta) (next : nat) : Layer :=
  {| id := i; config := c; meta := m; getPosition_cache := ∅; getText_cache := ∅;
     nextRef := next; metaCalls := [] |}.

(** ** Methods run on the layer: state and exceptions

    A method takes the layer and gives the layer it leaves behind and
    either its result or nothing, when it threw; what it did to the layer
    before throwing stays done. *)
Definition M (A : Type) : Type := Layer → Layer * option A.

Definition ret {A} (a : A) : M A := λ L, (L, Some a).

Definition bind {A B} (m : M A) (k : A → M B) : M B :=
  λ L, match m L with
       | (L', Some a) => k a L'
       | (L', None) => (L', None)
       end.

Definition throw {A} : M A := λ L, (L, None).

Definition lift {A} (o : option A) : M A := λ L, (L, o).

Definition this : M Layer := λ L, (L, Some L).

Notation "x <- m ;; k" := (bind m (λ x, k))
  (at level 100, m at next level, right associativity).

Definition modify (f : Layer → Layer) : M unit := λ L, (f L, Some tt).

(** A fresh identity. *)
Definition newRef : M nat :=
  L <- this ;;
  _ <- modify (set_nextRef (S (nextRef L))) ;;
  ret (nextRef L).

Definition newArr {A} (l : list A) : M (Arr A) :=
  r <- newRef ;; ret {| arr_ref := r; items := l |}.

(** [this.getPosition = memoize(pointPosAccessor, pointPosResolver)]: on a
    hit the cached closure, on a miss a new closure over [cols], stored
    under the key. *)
Definition getPositionMemo (cols : Columns) : M PosAccessor :=
  let key := pointPosResolver cols in
  L <- this ;;
  match getPosition_cache L !! key with
  | Some f => ret f
  | None =>
      r <- newRef ;;
      let f := {| pos_ref := r; pos_env := cols |} in
      _ <- modify (set_getPosition_cache (<[key := f]> (getPosition_cache L))) ;;
      ret f
  end.

(** [this.getText = memoize(pointLabelAccessor, pointLabelResolver)] *)
Definition getTextMemo (textLabel : TextLabel) : M TextAccessor :=
  let key := pointLabelResolver textLabel in
  L <- this ;;
  match getText_cache L !! key with
  | Some g => ret g
  | None =>
      r <- newRef ;;
      let g := {| text_ref := r; text_env := textLabel |} in
      _ <- modify (set_getText_cache (<[key := g]> (getText_cache L))) ;;
      ret g
  end.

(** [getPositionAccessor()] *)
Definition getPositionAccessor : M PosAccessor :=
  L <- this ;; getPositionMemo (columns (config L)).

(** [updateLayerMeta(allData)]: the bounds of all rows, by the layer's
    current accessor. *)
Definition updateLayerMeta (allData : list Row) : M unit :=
  getPosition <- getPositionAccessor ;;
  let bounds := getPointsBounds allData (λ d, applyPos getPosition {| Datum.data := d |}) in
  modify (set_bounds allData getPosition bounds).

(** [a === b] on closures *)
Definition samePos (a b : PosAccessor) : bool := bool_decide (pos_ref a = pos_ref b).
Definition sameText (a b : TextAccessor) : bool := bool_decide (text_ref a = text_ref b).

(** The callback of the [reduce] in [formatLayerData]. [allData[index]] is
    [undefined] past the end of the table, and the accessor then throws on
    [d.data[...]]. *)
Definition keepFinite (allData : list Row) (getPosition : PosAccessor)
    (accu : list Datum.t) (index : nat) : option (list Datum.t) :=
  row ← allData !! index;
  let pos := applyPos getPosition {| Datum.data := row |} in
  (* if doesn't have point lat or lng, do not add the point *)
  if negb (forallb Number_isFinite pos) then Some accu
  else Some (accu ++ [{| Datum.data := row |}]).

(** [formatLayerData], lines 226-228: the bounds are taken again when there
    is no previous result or its accessor is another function. *)
Definition refreshBounds (allData : list Row) (oldLayerData : option LayerData.t)
    (getPosition : PosAccessor) : M unit :=
  match oldLayerData with
  | Some old =>
      if negb (samePos (LayerData.getPosition old) getPosition)
      then updateLayerMeta allData else ret tt
  | None => updateLayerMeta allData
  end.

(** [formatLayerData], lines 230-254: the previous rows, or the rows of
    [filteredIndex] whose position is finite, in a new array. *)
Definition filterRows (allData : list Row) (filteredIndex : list nat)
    (oldLayerData : option LayerData.t) (opt : Options)
    (getPosition : PosAccessor) : M (Arr Datum.t) :=
  let rebuild :=
    r <- newRef ;;
    accu <- lift (reduce (keepFinite allData getPosition) filteredIndex []) ;;
    ret {| arr_ref := r; items := accu |} in
  match oldLayerData with
  | Some old =>
      if sameData opt && samePos (LayerData.getPosition old) getPosition
      then ret (LayerData.data old)
      else rebuild
  | None => rebuild
  end.

(** [formatLayerData], lines 258-269: the previous character set, or the
    distinct characters of the labels of [data]. *)
Definition collectCharacters (textLabel : TextLabel) (data : Arr Datum.t)
    (oldLayerData : option LayerData.t) (opt : Options)
    (getText : TextAccessor) : M (Arr ascii) :=
  let recompute :=
    textLabels <- lift (if field textLabel is Some _
                        then map_throw (applyText getText) (items data)
                        else Some []) ;;
    newArr (uniq (join textLabels)) in
  match oldLayerData with
  | Some old =>
      if sameData opt && sameText (LayerData.getText old) getText
      then ret (LayerData.labelCharacterSet old)
      else recompute
  | None => recompute
  end.

(** [formatLayerData(_, allData, filteredIndex, oldLayerData, opt = {})] *)
Definition formatLayerData (allData : list Row) (filteredIndex : list nat)
    (oldLayerData : option LayerData.t) (opt : Options) : M LayerData.t :=
  L <- this ;;
  let cfg := config L in
  let vc := visConfig cfg in
  (* fill color *)
  let cScale :=
    (λ _, getVisChannelScale (colorScale cfg) (colorDomain cfg)
            (inl (hexToRgb <$> colors (colorRange vc))) None) <$> colorField cfg in
  (* stroke color *)
  let scScale :=
    (λ _, getVisChannelScale (strokeColorScale cfg) (strokeColorDomain cfg)
            (inl (hexToRgb <$> colors (strokeColorRange vc))) None)
    <$> strokeColorField cfg in
  (* point radius *)
  let rScale :=
    (λ _, getVisChannelScale (sizeScale cfg) (sizeDomain cfg)
            (inr (radiusRange vc)) (Some (fixedRadius vc))) <$> sizeField cfg in
  getPosition <- getPositionAccessor ;;
  _ <- refreshBounds allData oldLayerData getPosition ;;
  data <- filterRows allData filteredIndex oldLayerData opt getPosition ;;
  (* get all distinct characters in the text labels *)
  getText <- getTextMemo (textLabel cfg) ;;
  labelCharacterSet <- collectCharacters (textLabel cfg) data oldLayerData opt getText ;;
  let getRadius :=
    match rScale with
    | Some rScale => Function (λ d, getEncodedChannelValue rScale (Datum.data d) (sizeField cfg))
    | None => Constant (CNumber (Finite (inject_Z 1)))
    end in
  let getFillColor :=
    match cScale with
    | Some cScale => Function (λ d, getEncodedChannelValue cScale (Datum.data d) (colorField cfg))
    | None => Constant (CColor (color cfg))
    end in
  let getLineColor :=
    match scScale with
    | Some scScale =>
        Function (λ d, getEncodedChannelValue scScale (Datum.data d) (strokeColorField cfg))
    | None => Constant (CColor (default (color cfg) (strokeColor vc)))
    end in
  ret {| LayerData.data := data;
         LayerData.labelCharacterSet := labelCharacterSet;
         LayerData.getPosition := getPosition;
         LayerData.getFillColor := getFillColor;
         LayerData.getLineColor := getLineColor;
         LayerData.getRadius := getRadius;
         LayerData.getText := getText |}.

(** ** [renderLayer] *)

Record Brush : Type := { enabled : bool; brush_size : number }.
Record InteractionConfig : Type := { brush : Brush }.

(** [layerProps] *)
Record LayerProps : Type := {
  stroked : bool;
  lp_filled : bool;
  radiusMinPixels : Z;
  lineWidthMinPixels : number;
  radiusScale : number;
  radiusMaxPixels : option Z
}.

(** [interaction] *)
Record Interaction : Type := {
  autoHighlight : bool;
  enableBrushing : bool;
  brushRadius : number;
  int_highlightColor : Color
}.

Record UpdateTriggers : Type := {
  ut_getPosition : Columns;
  ut_getRadius : option VisField * list number * bool * string;
  ut_getFillColor : Color * option VisField * ColorRange * string;
  ut_getLineColor : option Color * option VisField * ColorRange * string;
  ut_getText : TextLabel
}.

(** The props of a [ScatterplotBrushingLayer]; the entries only the primary
    layer sets are optional. *)
Record ScatterplotProps : Type := {
  sp_layerProps : LayerProps;
  sp_layerInteraction : option LayerInteraction;
  sp_interaction : option Interaction;
  sp_idx : option Z;
  sp_id : string;
  sp_data : list Datum.t;
  sp_labelCharacterSet : option (Arr ascii);
  sp_getPosition : PosAccessor;
  sp_getFillColor : Accessor;
  sp_getLineColor : Accessor;
  sp_getRadius : Accessor;
  sp_getText : option TextAccessor;
  sp_opacity : option number;
  sp_pickable : bool;
  sp_depthTest : option bool;
  sp_updateTriggers : option UpdateTriggers
}.

(** The props of the [TextLayer]. *)
Record TextProps : Type := {
  tp_layerInteraction : LayerInteraction;
  tp_id : string;
  tp_data : Arr Datum.t;
  tp_getPosition : PosAccessor;
  tp_getPixelOffset : list Z;
  tp_getSize : Z;
  tp_getTextAnchor : string;
  tp_getText : TextAccessor;
  tp_getColor : Datum.t → Color;
  tp_depthTest : bool;
  tp_characterSet : Arr ascii;
  tp_updateTriggers :
    PosAccessor * list Z * option LabelField * string * Z * Color
}.

Inductive DeckLayer : Type :=
  | ScatterplotBrushingLayer (props : ScatterplotProps)
  | TextLayer (props : TextProps).

Record RenderArgs : Type := {
  ra_data : LayerData.t;
  ra_idx : Z;
  ra_layerInteraction : LayerInteraction;
  ra_objectHovered : option ObjectInfo;
  ra_mapState : MapState;
  ra_interactionConfig : InteractionConfig
}.

(** [renderLayer({data, idx, layerInteraction, objectHovered, mapState,
    interactionConfig})]. The elements of the returned array are built in
    order; [this.config.columns.altitude.fieldIdx] throws when the columns
    have no [altitude], [objectHovered.object] when [objectHovered] is
    [null]. *)
Definition renderLayer (args : RenderArgs) : M (list DeckLayer) :=
  L <- this ;;
  let cfg := config L in
  let vc := visConfig cfg in
  let data := ra_data args in
  let enableBrushing := enabled (brush (ra_interactionConfig args)) in
  let layerProps :=
    {| stroked := outline vc;
       lp_filled := filled vc;
       radiusMinPixels := 1;
       lineWidthMinPixels := thickness vc;
       radiusScale := getRadiusScaleByZoom (ra_mapState args);
       radiusMaxPixels := if fixedRadius vc then None else Some 500 |} in
  let interaction :=
    {| autoHighlight := negb enableBrushing;
       enableBrushing := enableBrushing;
       brushRadius :=
         times (brush_size (brush (ra_interactionConfig args)))
               (Finite (inject_Z 1000));
       int_highlightColor := highlightColor cfg |} in
  primary <-
    (alt <- lift (altitude (columns cfg)) ;;
     ret (ScatterplotBrushingLayer
       {| sp_layerProps := layerProps;
          sp_layerInteraction := Some (ra_layerInteraction args);
          sp_interaction := Some interaction;
          sp_idx := Some (ra_idx args);
          sp_id := id L;
          sp_data := items (LayerData.data data);
          sp_labelCharacterSet := Some (LayerData.labelCharacterSet data);
          sp_getPosition := LayerData.getPosition data;
          sp_getFillColor := LayerData.getFillColor data;
          sp_getLineColor := LayerData.getLineColor data;
          sp_getRadius := LayerData.getRadius data;
          sp_getText := Some (LayerData.getText data);
          sp_opacity := Some (opacity vc);
          sp_pickable := true;
          (* circles will be flat on the map when the altitude column is
             not used *)
          sp_depthTest := Some (bool_decide (fieldIdx alt > -1));
          sp_updateTriggers := Some
            {| ut_getPosition := columns cfg;
               ut_getRadius :=
                 (sizeField cfg, radiusRange vc, fixedRadius vc, sizeScale cfg);
               ut_getFillColor :=
                 (color cfg, colorField cfg, colorRange vc, colorScale cfg);
               ut_getLineColor :=
                 (strokeColor vc, strokeColorField cfg, strokeColorRange vc,
                  strokeColorScale cfg);
               ut_getText := textLabel cfg |} |})) ;;
  (* hover layer *)
  hover <-
    (if isLayerHovered (id L) (ra_objectHovered args)
     then
       objectHovered <- lift (ra_objectHovered args) ;;
       ret [ScatterplotBrushingLayer
         {| sp_layerProps := layerProps;
            sp_layerInteraction := None;
            sp_interaction := None;
            sp_idx := None;
            sp_id := id L +:+ "-hovered";
            sp_data := [object objectHovered];
            sp_labelCharacterSet := None;
            sp_getPosition := LayerData.getPosition data;
            sp_getFillColor := Constant (CColor (highlightColor cfg));
            sp_getLineColor := Constant (CColor (highlightColor cfg));
            sp_getRadius := LayerData.getRadius data;
            sp_getText := None;
            sp_opacity := None;
            sp_pickable := false;
            sp_depthTest := None;
            sp_updateTriggers := None |}]
     else ret []) ;;
  (* text label layer *)
  text <-
    (if field (textLabel cfg) is Some _
     then
       ret [TextLayer
         {| tp_layerInteraction := ra_layerInteraction args;
            tp_id := id L +:+ "-label";
            tp_data := LayerData.data data;
            tp_getPosition := LayerData.getPosition data;
            tp_getPixelOffset := label_offset (textLabel cfg);
            tp_getSize := label_size (textLabel cfg);
            tp_getTextAnchor := label_anchor (textLabel cfg);
            tp_getText := LayerData.getText data;
            tp_getColor := λ d, label_color (textLabel cfg);
            (* text will always show on top of all layers *)
            tp_depthTest := false;
            tp_characterSet := LayerData.labelCharacterSet data;
            tp_updateTriggers :=
              (LayerData.getPosition data, label_offset (textLabel cfg),
               field (textLabel cfg), label_anchor (textLabel cfg),
               label_size (textLabel cfg), label_color (textLabel cfg)) |}]
     else ret []) ;;
  ret (primary :: hover ++ text).

End PointLayer.

Notation "x <- m ;; k" := (bind m (λ x, k))
  (at level 100, m at next level, right associativity).

(** ** [findDefaultLayerProps] *)

(** A pair of latitude and longitude fields found in a table, with the
    name proposed for its layer. *)
Record FieldPair : Type := {
  defaultName : string;
  pair_lat : Column;
  pair_lng : Column
}.

(** The props of a layer to create; [color] and [isVisible] are set on
    some of them only. *)
Module Props.
Record t : Type := {
  label : string;
  color : option Color;
  isVisible : option bool;
  columns : Columns
}.
End Props.

Section DefaultProps.
Context `{BL : BaseLayer}.

(** [DEFAULT_LAYER_COLOR] of [constants/default-settings], which is not
    part of this file: which field names it has an entry for, and the hex
    color of an entry. *)
Variable DEFAULT_LAYER_COLOR_has : string → bool.
Variable DEFAULT_LAYER_COLOR_get : string → string.

(** A property key made of a field name; [null] gives ["null"]. *)
Definition propertyKey (v : option string) : string := default "null" v.

(** The callback of the [forEach] in [findDefaultLayerProps], with the
    array [props] it pushes to. *)
Definition pushDefaultProp (props : list Props.t) (pair : FieldPair) : list Props.t :=
  (* find fields for tableFieldIndex *)
  let latField := pair_lat pair in
  let lngField := pair_lng pair in
  let layerName := defaultName pair in
  props ++
  [ {| Props.label :=
         if decide (String.length layerName = 0%nat) then "Point" else layerName;
       (* default layer color for begintrip and dropoff point *)
       Props.color :=
         if DEFAULT_LAYER_COLOR_has (propertyKey (col_value latField))
         then Some (hexToRgb (DEFAULT_LAYER_COLOR_get (propertyKey (col_value latField))))
         else None;
       (* set the first layer to be visible *)
       Props.isVisible :=
         if decide (length props = 0%nat) then Some true else None;
       Props.columns :=
         {| lat := latField;
            lng := lngField;
            altitude := Some {| col_value := None; fieldIdx := -1; optional := true |} |}
    |} ].

(** [PointLayer.findDefaultLayerProps({fieldPairs = []})] *)
Definition findDefaultLayerProps (fieldPairs : list FieldPair) : list Props.t :=
  foldl pushDefaultProp [] fieldPairs.

End DefaultProps.

(** ** The layer's column lists *)

(** [pointRequiredColumns], [pointOptionalColumns] *)
Definition pointRequiredColumns : list string := ["lat"; "lng"].
Definition pointOptionalColumns : list string := ["altitude"].

(** * Properties *)

(** ** The cache key of the position accessor

    The memoized accessor closes over the first binding that produced a
    key, so the cache is sound only if bindings with one key read the same
    cells. The key is a text with [-] as separator and as minus sign; it
    still determines the three indices. *)

Definition is_digit (c : ascii) : bool :=
  match c with
  | "0" | "1" | "2" | "3" | "4" | "5" | "6" | "7" | "8" | "9" => true
  | _ => false
  end%char.

Fixpoint digits (s : string) : bool :=
  match s with
  | EmptyString => true
  | String c s' => is_digit c && digits s'
  end.


(** ** Invariant of the layer and how a method may change it *)

Section Invariants.
Context `{BL : BaseLayer}.

(** What [memoize] maintains: a cached closure was built from a binding of
    its key, closures under different keys are different functions, and
    every cached closure was allocated in the past. *)
Record wf (L : Layer) : Prop := {
  wf_pos_key : ∀ k f,
    getPosition_cache L !! k = Some f → pointPosResolver (pos_env f) = k;
  wf_pos_ref : ∀ k f,
    getPosition_cache L !! k = Some f → (pos_ref f < nextRef L)%nat;
  wf_pos_inj : ∀ k1 k2 f1 f2,
    getPosition_cache L !! k1 = Some f1 → getPosition_cache L !! k2 = Some f2 →
    pos_ref f1 = pos_ref f2 → k1 = k2;
  wf_text_key : ∀ k g,
    getText_cache L !! k = Some g → pointLabelResolver (text_env g) = k
}.

(** A method keeps the layer's identity and configuration, never drops a
    cache entry and never reuses an identity. *)
Record grows (L L' : Layer) : Prop := {
  grows_id : id L' = id L;
  grows_config : config L' = config L;
  grows_pos : getPosition_cache L ⊆ getPosition_cache L';
  grows_text : getText_cache L ⊆ getText_cache L';
  grows_ref : (nextRef L ≤ nextRef L')%nat
}.

(** A step that leaves the bounds alone. *)
Definition quiet (L L' : Layer) : Prop :=
  meta L' = meta L ∧ metaCalls L' = metaCalls L.

(** ** The rows a pass keeps *)

(** All derived coordinates of a row are finite numbers. *)
Definition positionFinite (cols : Columns) (row : Row) : bool :=
  forallb Number_isFinite (pointPosAccessor cols {| Datum.data := row |}).

Definition finiteAt (allData : list Row) (cols : Columns) (index : nat) : bool :=
  from_option (positionFinite cols) false (allData !! index).

(** The filtered indices whose row is kept, in their order. *)
Definition keptIndices (allData : list Row) (cols : Columns)
    (filteredIndex : list nat) : list nat :=
  List.filter (finiteAt allData cols) filteredIndex.

Definition datumAt (allData : list Row) (index : nat) : option Datum.t :=
  (λ row, {| Datum.data := row |}) <$> allData !! index.

Definition retained (allData : list Row) (cols : Columns)
    (filteredIndex : list nat) : list Datum.t :=
  omap (datumAt allData) (keptIndices allData cols filteredIndex).

Definition inRange (allData : list Row) (filteredIndex : list nat) : Prop :=
  Forall (λ index, (index < length allData)%nat) filteredIndex.

(** The three tests of [formatLayerData] on the previous result. *)
Definition boundsStale (oldLayerData : option LayerData.t) (getPosition : PosAccessor) : bool :=
  match oldLayerData with
  | Some old => negb (samePos (LayerData.getPosition old) getPosition)
  | None => true
  end.

Definition rowsReused (oldLayerData : option LayerData.t) (opt : Options)
    (getPosition : PosAccessor) : bool :=
  match oldLayerData with
  | Some old => sameData opt && samePos (LayerData.getPosition old) getPosition
  | None => false
  end.

Definition charactersReused (oldLayerData : option LayerData.t) (opt : Options)
    (getText : TextAccessor) : bool :=
  match oldLayerData with
  | Some old => sameData opt && sameText (LayerData.getText old) getText
  | None => false
  end.

(** The characters of the labels of some rows. *)
Definition labelCharacters (getText : TextAccessor) (rows : list Datum.t) (c : ascii) : Prop :=
  ∃ d s, d ∈ rows ∧ applyText getText d = Some s ∧ c ∈ list_ascii_of_string s.

(** The object a pass returns, from the rows, the characters and the two
    accessors it arrived at. *)
Definition descriptor (cfg : Config) (data : Arr Datum.t) (characters : Arr ascii)
    (getPosition : PosAccessor) (getText : TextAccessor) : LayerData.t :=
  {| LayerData.data := data;
     LayerData.labelCharacterSet := characters;
     LayerData.getPosition := getPosition;
     LayerData.getFillColor :=
       match colorField cfg with
       | Some _ =>
           Function (λ d, getEncodedChannelValue
             (getVisChannelScale (colorScale cfg) (colorDomain cfg)
                (inl (hexToRgb <$> colors (colorRange (visConfig cfg)))) None)
             (Datum.data d) (colorField cfg))
       | None => Constant (CColor (color cfg))
       end;
     LayerData.getLineColor :=
       match strokeColorField cfg with
       | Some _ =>
           Function (λ d, getEncodedChannelValue
             (getVisChannelScale (strokeColorScale cfg) (strokeColorDomain cfg)
                (inl (hexToRgb <$> colors (strokeColorRange (visConfig cfg)))) None)
             (Datum.data d) (strokeColorField cfg))
       | None =>
           Constant (CColor (default (color cfg) (strokeColor (visConfig cfg))))
       end;
     LayerData.getRadius :=
       match sizeField cfg with
       | Some _ =>
           Function (λ d, getEncodedChannelValue
             (getVisChannelScale (sizeScale cfg) (sizeDomain cfg)
                (inr (radiusRange (visConfig cfg)))
                (Some (fixedRadius (visConfig cfg))))
             (Datum.data d) (sizeField cfg))
       | None => Constant (CNumber (Finite (inject_Z 1)))
       end;
     LayerData.getText := getText |}.

(** The bounds [updateLayerMeta] stores. *)
Definition boundsOf (allData : list Row) (getPosition : PosAccessor) : Bounds :=
  getPointsBounds allData (λ d, applyPos getPosition {| Datum.data := d |}).

(** A configuration edit that rebinds the columns. *)
Definition bindColumns (cols : Columns) (L : Layer) : Layer :=
  set_config (set_columns cols (config L)) L.

End Invariants.

(** ** A base layer and a table to run the layer on *)

Definition sampleBase : BaseLayer := {|
  VisField := string;
  Domain := list Z;
  Scale := string;
  Bounds := list (list value);
  Meta := option (list (list value));
  MapState := Z;
  LayerInteraction := unit;
  finiteToString := λ q, pretty (Qnum q);
  hexToRgb := λ _, [0; 0; 0];
  getVisChannelScale := λ scale _ _ _, scale;
  getEncodedChannelValue := λ _ _ _, CNumber NaN;
  getPointsBounds := λ allData getPosition, getPosition <$> allData;
  updateMeta := λ _ bounds, Some bounds;
  getRadiusScaleByZoom := λ _, Finite (inject_Z 1);
  isLayerHovered := λ i objectInfo,
    match objectInfo with
    | Some info => picked info && bool_decide (picked_layer info = Some i)
    | None => false
    end;
  times := λ x y,
    match x, y with
    | Finite p, Finite q => Finite (Qmult p q)
    | _, _ => NaN
    end
|}.

Definition column (i : Z) : Column :=
  {| col_value := None; fieldIdx := i; optional := false |}.

(** [lat.fieldIdx = 1], [lng.fieldIdx = 0] and the given altitude binding. *)
Definition sampleColumns (alt : option Column) : Columns :=
  {| lat := column 1; lng := column 0; altitude := alt |}.

Definition sampleTextLabel (f : option LabelField) : TextLabel :=
  {| field := f; label_color := [255; 255; 255]; label_size := 18;
     label_offset := [0; 0]; label_anchor := "start" |}.

Definition sampleVisConfig : VisConfig :=
  {| radius := Finite (inject_Z 10); fixedRadius := false;
     opacity := Finite (inject_Z 1); outline := false;
     thickness := Finite (inject_Z 2); strokeColor := None;
     colorRange := {| colors := [] |}; strokeColorRange := {| colors := [] |};
     radiusRange := []; filled := true |}.

Definition sampleDomain : @Domain sampleBase := [0; 1].

Definition sampleConfig (cols : Columns) (f : option LabelField) : @Config sampleBase :=
  {| columns := cols; color := [18; 147; 154]; highlightColor := [252; 242; 26];
     colorField := None; colorScale := "quantile"; colorDomain := sampleDomain;
     strokeColorField := None; strokeColorScale := "quantile";
     strokeColorDomain := sampleDomain;
     sizeField := None; sizeScale := "linear"; sizeDomain := sampleDomain;
     textLabel := sampleTextLabel f; visConfig := sampleVisConfig |}.

Definition sampleLayer (cols : Columns) (f : option LabelField) : @Layer sampleBase :=
  newLayer "point-1" (sampleConfig cols f) None 0.

(** The rows [[{lng: 1, lat: 10}, {lng: NaN, lat: 20}]] as arrays of cells. *)
Definition sampleRows : list Row :=
  [ [num 1; num 10]; [VNumber NaN; num 20] ].

Definition sampleField : LabelField :=
  {| field_name := "name"; tableFieldIndex := 1 |}.


(** ** Configuration edits and the default props, position by position *)

Section Edits.
Context `{BL : BaseLayer}.

Definition set_textLabel (tl : TextLabel) (c : Config) : Config :=
  {| columns := columns c; color := color c; highlightColor := highlightColor c;
     colorField := colorField c; colorScale := colorScale c;
     colorDomain := colorDomain c; strokeColorField := strokeColorField c;
     strokeColorScale := strokeColorScale c;
     strokeColorDomain := strokeColorDomain c; sizeField := sizeField c;
     sizeScale := sizeScale c; sizeDomain := sizeDomain c;
     textLabel := tl; visConfig := visConfig c |}.

(** A configuration edit that replaces the label settings. *)
Definition restyleLabel (tl : TextLabel) (L : Layer) : Layer :=
  set_config (set_textLabel tl (config L)) L.

(** A cell that is a finite number. *)
Definition finiteCell (row : Row) (i : Z) : bool := Number_isFinite (getIdx row i).

(** The props [findDefaultLayerProps] makes of the pair at position [i]. *)
Definition defaultPropAt (has : string → bool) (get : string → string)
    (i : nat) (pair : FieldPair) : Props.t :=
  {| Props.label :=
       if decide (defaultName pair = EmptyString) then "Point" else defaultName pair;
     Props.color :=
       if has (propertyKey (col_value (pair_lat pair)))
       then Some (hexToRgb (get (propertyKey (col_value (pair_lat pair)))))
       else None;
     Props.isVisible := if decide (i = 0%nat) then Some true else None;
     Props.columns :=
       {| lat := pair_lat pair; lng := pair_lng pair;
          altitude := Some {| col_value := None; fieldIdx := -1; optional := true |} |} |}.

End Edits.

(** The characters of ["undefined"], each once. *)
Definition undefinedCharacters : list ascii :=
  ["u"; "n"; "d"; "e"; "f"; "i"]%char.

(** ** The layers a program can get to *)

Section Reachable.
Context `{BL : BaseLayer}.

(** A layer as the constructor makes it, and what the methods of this file
    and configuration edits make of it, whatever their arguments. *)
Inductive reachable : Layer → Prop :=
  | reach_new i cfg m n : reachable (newLayer i cfg m n)
  | reach_config L cfg : reachable L → reachable (set_config cfg L)
  | reach_getPosition L cols : reachable L → reachable (getPositionMemo cols L).1
  | reach_getText L tl : reachable L → reachable (getTextMemo tl L).1
  | reach_updateLayerMeta L allData :
      reachable L → reachable (updateLayerMeta allData L).1
  | reach_formatLayerData L allData filteredIndex old opt :
      reachable L → reachable (formatLayerData allData filteredIndex old opt L).1
  | reach_renderLayer L args : reachable L → reachable (renderLayer args L).1.

End Reachable.

(** ** How much a method may add to the layer *)

Section Growth.
Context `{BL : BaseLayer}.


End Growth.

(** ** Label accessors as functions with an identity *)

Section LabelIdentity.
Context `{BL : BaseLayer}.

(** Cached label accessors were allocated in the past, and accessors under
    different keys are different functions. *)
Record distinctLabels (L : Layer) : Prop := {
  label_ref : ∀ k g,
    getText_cache L !! k = Some g → (text_ref g < nextRef L)%nat;
  label_inj : ∀ k1 k2 g1 g2,
    getText_cache L !! k1 = Some g1 → getText_cache L !! k2 = Some g2 →
    text_ref g1 = text_ref g2 → k1 = k2
}.

(** A property of layers that the four ways a method writes to the layer
    keep: giving out identities, storing bounds, caching a new position
    accessor, caching a new label accessor. *)
Record keptByWrites (I : Layer → Prop) : Prop := {
  kept_nextRef : ∀ L, I L → I (set_nextRef (S (nextRef L)) L);
  kept_bounds : ∀ L allData f b, I L → I (set_bounds allData f b L);
  kept_position : ∀ L cols,
    getPosition_cache L !! pointPosResolver cols = None → I L →
    I (set_getPosition_cache
         (<[pointPosResolver cols := {| pos_ref := nextRef L; pos_env := cols |}]>
            (getPosition_cache L))
         (set_nextRef (S (nextRef L)) L));
  kept_label : ∀ L tl,
    getText_cache L !! pointLabelResolver tl = None → I L →
    I (set_getText_cache
         (<[pointLabelResolver tl := {| text_ref := nextRef L; text_env := tl |}]>
            (getText_cache L))
         (set_nextRef (S (nextRef L)) L))
}.

End LabelIdentity.
Lemma pretty_N_char_digit x : is_digit (pretty_N_char x) = true.
Proof. unfold pretty_N_char. by repeat case_match. Qed.

Lemma pretty_N_go_digits x s : digits s = true → digits (pretty_N_go x s) = true.
Proof.
  revert s. induction (N.lt_wf_0 x) as [x _ IH]; intros s Hs.
  destruct (decide (x = 0)%N) as [->|Hx]; [by rewrite pretty_N_go_0|].
  rewrite pretty_N_go_step by lia. apply IH.
  - apply N.div_lt; lia.
  - simpl. by rewrite pretty_N_char_digit.
Qed.

Lemma pretty_N_go_nonempty x s : s ≠ EmptyString → pretty_N_go x s ≠ EmptyString.
Proof.
  revert s. induction (N.lt_wf_0 x) as [x _ IH]; intros s Hs.
  destruct (decide (x = 0)%N) as [->|Hx]; [by rewrite pretty_N_go_0|].
  rewrite pretty_N_go_step by lia. apply IH; [apply N.div_lt; lia|done].
Qed.

Lemma pretty_N_digits (x : N) : digits (pretty x) = true ∧ pretty x ≠ EmptyString.
Proof.
  unfold pretty, pretty_N. case_decide as Hx; [done|]. split.
  - by apply pretty_N_go_digits.
  - rewrite pretty_N_go_step by lia. by apply pretty_N_go_nonempty.
Qed.

(** The text of an integer: digits, or a minus sign and digits. *)
Lemma pretty_Z_shape (z : Z) :
  (digits (pretty z) = true ∧ pretty z ≠ EmptyString) ∨
  (∃ s, pretty z = String "-" s ∧ digits s = true ∧ s ≠ EmptyString).
Proof.
  destruct z as [|p|p].
  - by left.
  - left. apply (pretty_N_digits (Npos p)).
  - right. exists (pretty (Npos p)). split; [done|apply pretty_N_digits].
Qed.

(** Digits end at the first [-]. *)
Lemma digits_split s1 s2 t1 t2 :
  digits s1 = true → digits s2 = true →
  s1 +:+ String "-" t1 = s2 +:+ String "-" t2 → s1 = s2 ∧ t1 = t2.
Proof.
  revert s2. induction s1 as [|c s1 IH]; intros [|c' s2] H1 H2 Heq.
  - by injection Heq.
  - injection Heq as <- _. done.
  - injection Heq as -> _. done.
  - injection Heq as <- Heq. simpl in H1, H2.
    apply andb_prop in H1 as [_ H1]. apply andb_prop in H2 as [_ H2].
    destruct (IH s2 H1 H2 Heq) as [-> ->]. done.
Qed.

Lemma pretty_Z_split (x y : Z) (s t : string) :
  pretty x +:+ String "-" s = pretty y +:+ String "-" t → x = y ∧ s = t.
Proof.
  intros Heq.
  destruct (pretty_Z_shape x) as [[Dx Nx]|(sx & Ex & Dx & Nx)],
           (pretty_Z_shape y) as [[Dy Ny]|(sy & Ey & Dy & Ny)].
  - destruct (digits_split _ _ _ _ Dx Dy Heq) as [E ->].
    split; [by apply (inj pretty)|done].
  - rewrite Ey in Heq. destruct (pretty x) as [|c px]; [done|].
    injection Heq as -> _. done.
  - rewrite Ex in Heq. destruct (pretty y) as [|c py]; [done|].
    injection Heq as <- _. done.
  - rewrite Ex, Ey in Heq. injection Heq as Heq.
    destruct (digits_split _ _ _ _ Dx Dy Heq) as [E ->].
    split; [apply (inj pretty); congruence|done].
Qed.

Lemma pretty_Z_not_z (x : Z) : pretty x ≠ "z".
Proof.
  destruct (pretty_Z_shape x) as [[Dx _]|(sx & Ex & _)].
  - intros E. by rewrite E in Dx.
  - by rewrite Ex.
Qed.

(** The key determines the three indices, and whether there is an altitude
    binding. *)
Lemma pointPosResolver_inj (c1 c2 : Columns) :
  pointPosResolver c1 = pointPosResolver c2 →
  fieldIdx (lat c1) = fieldIdx (lat c2) ∧
  fieldIdx (lng c1) = fieldIdx (lng c2) ∧
  fieldIdx <$> altitude c1 = fieldIdx <$> altitude c2.
Proof.
  unfold pointPosResolver. intros Heq.
  apply pretty_Z_split in Heq as [Hlat Heq].
  apply pretty_Z_split in Heq as [Hlng Heq].
  repeat split; [done..|].
  destruct (altitude c1) as [a1|], (altitude c2) as [a2|]; simpl.
  - f_equal. by apply (inj pretty).
  - by destruct (pretty_Z_not_z (fieldIdx a1)).
  - by destruct (pretty_Z_not_z (fieldIdx a2)).
  - done.
Qed.

Lemma pointPosResolver_ext (c1 c2 : Columns) :
  fieldIdx (lat c1) = fieldIdx (lat c2) →
  fieldIdx (lng c1) = fieldIdx (lng c2) →
  fieldIdx <$> altitude c1 = fieldIdx <$> altitude c2 →
  pointPosResolver c1 = pointPosResolver c2.
Proof.
  unfold pointPosResolver. intros -> -> Halt.
  destruct (altitude c1), (altitude c2); simplify_eq/=; congruence.
Qed.

(** Bindings with one key give accessors that agree on every object. *)
Lemma pointPosAccessor_key (c1 c2 : Columns) (d : Datum.t) :
  pointPosResolver c1 = pointPosResolver c2 →
  pointPosAccessor c1 d = pointPosAccessor c2 d.
Proof.
  intros (Hlat & Hlng & Halt)%pointPosResolver_inj.
  unfold pointPosAccessor. rewrite Hlat, Hlng.
  destruct (altitude c1), (altitude c2); simplify_eq/=; [|done].
  by rewrite Halt.
Qed.

(** ** Running the methods *)

Section Execution.
Context `{BL : BaseLayer}.

Lemma bind_run {A B} (m : M A) (k : A → M B) L L' a :
  m L = (L', Some a) → bind m k L = k a L'.
Proof. unfold bind. by intros ->. Qed.

Lemma bind_throw {A B} (m : M A) (k : A → M B) L L' :
  m L = (L', None) → bind m k L = (L', None).
Proof. unfold bind. by intros ->. Qed.

Global Instance grows_refl : Reflexive grows.
Proof. by split. Qed.

Global Instance grows_trans : Transitive grows.
Proof.
  intros L1 L2 L3 [] []. split; try (etrans; eassumption).
  all: congruence.
Qed.

Lemma quiet_refl L : quiet L L.
Proof. by split. Qed.

Lemma quiet_trans L1 L2 L3 : quiet L1 L2 → quiet L2 L3 → quiet L1 L3.
Proof. unfold quiet. intros [] []. split; congruence. Qed.

Lemma newRef_eq L : newRef L = (set_nextRef (S (nextRef L)) L, Some (nextRef L)).
Proof. done. Qed.

Lemma newArr_eq {A} (l : list A) L :
  newArr l L = (set_nextRef (S (nextRef L)) L, Some {| arr_ref := nextRef L; items := l |}).
Proof. done. Qed.

Lemma set_nextRef_grows L n : (nextRef L ≤ n)%nat → grows L (set_nextRef n L).
Proof. by split. Qed.

Lemma set_nextRef_wf L n : (nextRef L ≤ n)%nat → wf L → wf (set_nextRef n L).
Proof.
  intros Hn [Hk Hr Hi Ht]. split; simpl; [done| |done..].
  intros k f Hf. specialize (Hr k f Hf). lia.
Qed.

(** *** The memoized position accessor *)

Lemma getPositionMemo_hit cols L f :
  getPosition_cache L !! pointPosResolver cols = Some f →
  getPositionMemo cols L = (L, Some f).
Proof. unfold getPositionMemo, bind, this. by intros ->. Qed.

Lemma getPositionMemo_miss cols L :
  getPosition_cache L !! pointPosResolver cols = None →
  getPositionMemo cols L =
    (set_getPosition_cache
       (<[pointPosResolver cols := {| pos_ref := nextRef L; pos_env := cols |}]>
          (getPosition_cache L))
       (set_nextRef (S (nextRef L)) L),
     Some {| pos_ref := nextRef L; pos_env := cols |}).
Proof. unfold getPositionMemo, bind, this. by intros ->. Qed.

Lemma memo_pos_wf cols L :
  getPosition_cache L !! pointPosResolver cols = None → wf L →
  wf (set_getPosition_cache
        (<[pointPosResolver cols := {| pos_ref := nextRef L; pos_env := cols |}]>
           (getPosition_cache L))
        (set_nextRef (S (nextRef L)) L)).
Proof.
  intros Hmiss [Hk Hr Hi Ht]. split; simpl.
  - intros k f [[<- <-]|[_ Hf]]%lookup_insert_Some; [done|eauto].
  - intros k f [[<- <-]|[_ Hf]]%lookup_insert_Some; simpl; [lia|].
    specialize (Hr k f Hf). lia.
  - intros k1 k2 f1 f2 [[<- <-]|[? Hf1]]%lookup_insert_Some
      [[<- <-]|[? Hf2]]%lookup_insert_Some; simpl; intros Href.
    + done.
    + specialize (Hr k2 f2 Hf2). lia.
    + specialize (Hr k1 f1 Hf1). lia.
    + eauto.
  - done.
Qed.

(** Whatever the cache held, the call returns, the accessor is cached under
    the key afterwards, and the bounds are not touched. *)
Lemma getPositionMemo_run cols L L' r :
  getPositionMemo cols L = (L', r) →
  ∃ f, r = Some f ∧
       getPosition_cache L' !! pointPosResolver cols = Some f ∧
       grows L L' ∧ quiet L L' ∧ (wf L → wf L').
Proof.
  destruct (getPosition_cache L !! pointPosResolver cols) as [f|] eqn:Hc.
  - rewrite (getPositionMemo_hit _ _ _ Hc). intros [= <- <-].
    exists f. split; [done|]. split; [done|]. split; [reflexivity|].
    split; [apply quiet_refl|done].
  - rewrite (getPositionMemo_miss _ _ Hc). intros [= <- <-].
    eexists. split; [done|]. split; [simpl; by rewrite lookup_insert_eq|].
    split; [|split; [done|by apply memo_pos_wf]].
    split; simpl; try done; [|lia]. by apply insert_subseteq.
Qed.

Lemma getPositionAccessor_run L L' r :
  getPositionAccessor L = (L', r) →
  ∃ f, r = Some f ∧
       getPosition_cache L' !! pointPosResolver (columns (config L)) = Some f ∧
       grows L L' ∧ quiet L L' ∧ (wf L → wf L').
Proof. apply getPositionMemo_run. Qed.

Lemma getPositionAccessor_hit L f :
  getPosition_cache L !! pointPosResolver (columns (config L)) = Some f →
  getPositionAccessor L = (L, Some f).
Proof. apply getPositionMemo_hit. Qed.

(** With a sound cache the accessor reads the cells of the current
    binding, also when it was built from an earlier one. *)
Lemma cached_accessor_current L f d :
  wf L → getPosition_cache L !! pointPosResolver (columns (config L)) = Some f →
  applyPos f d = pointPosAccessor (columns (config L)) d.
Proof.
  intros HL Hf. apply pointPosAccessor_key. by apply (wf_pos_key _ HL).
Qed.

(** *** The memoized label accessor *)

Lemma getTextMemo_hit tl L g :
  getText_cache L !! pointLabelResolver tl = Some g →
  getTextMemo tl L = (L, Some g).
Proof. unfold getTextMemo, bind, this. by intros ->. Qed.

Lemma getTextMemo_run tl L L' r :
  getTextMemo tl L = (L', r) →
  ∃ g, r = Some g ∧
       getText_cache L' !! pointLabelResolver tl = Some g ∧
       grows L L' ∧ quiet L L' ∧ (wf L → wf L').
Proof.
  unfold getTextMemo, bind, this.
  destruct (getText_cache L !! pointLabelResolver tl) as [g|] eqn:Hc.
  - intros [= <- <-]. exists g. split; [done|]. split; [done|].
    split; [reflexivity|]. split; [apply quiet_refl|done].
  - intros [= <- <-]. eexists. split; [done|].
    split; [simpl; by rewrite lookup_insert_eq|].
    split; [|split; [done|]].
    + split; simpl; try done; [|lia]. by apply insert_subseteq.
    + intros [Hk Hr Hi Ht]. split; simpl; [done| |done|].
      * intros k f Hf. specialize (Hr k f Hf). lia.
      * intros k g [[<- <-]|[_ Hg]]%lookup_insert_Some; [done|eauto].
Qed.

(** The label accessor depends on the label field's index only. *)
Lemma pointLabelAccessor_key (t1 t2 : TextLabel) d :
  pointLabelResolver t1 = pointLabelResolver t2 →
  pointLabelAccessor t1 d = pointLabelAccessor t2 d.
Proof.
  unfold pointLabelResolver, pointLabelAccessor.
  destruct (field t1), (field t2); simpl; congruence.
Qed.

End Execution.

(** ** The blocks of [formatLayerData] *)

Section Blocks.
Context `{BL : BaseLayer}.

Lemma set_bounds_grows allData f b L : grows L (set_bounds allData f b L).
Proof. by split. Qed.

Lemma set_bounds_wf allData f b L : wf L → wf (set_bounds allData f b L).
Proof. by intros []. Qed.

Lemma updateLayerMeta_hit allData L f :
  getPosition_cache L !! pointPosResolver (columns (config L)) = Some f →
  updateLayerMeta allData L =
    (set_bounds allData f
       (getPointsBounds allData (λ d, applyPos f {| Datum.data := d |})) L,
     Some tt).
Proof.
  intros Hf. unfold updateLayerMeta.
  by rewrite (bind_run _ _ _ _ _ (getPositionAccessor_hit _ _ Hf)).
Qed.

(** Lines 226-228, once the accessor is in the cache. *)
Lemma refreshBounds_eq allData old getPosition L :
  getPosition_cache L !! pointPosResolver (columns (config L)) = Some getPosition →
  refreshBounds allData old getPosition L =
    (if boundsStale old getPosition
     then set_bounds allData getPosition
            (getPointsBounds allData (λ d, applyPos getPosition {| Datum.data := d |})) L
     else L,
     Some tt).
Proof.
  intros Hf. unfold refreshBounds, boundsStale.
  destruct old as [old|]; [|by apply updateLayerMeta_hit].
  destruct (negb _); [by apply updateLayerMeta_hit|done].
Qed.

(** *** The fold over the filtered indices *)

Lemma retained_cons allData cols index filteredIndex row :
  allData !! index = Some row →
  retained allData cols (index :: filteredIndex) =
    (if positionFinite cols row then [{| Datum.data := row |}] else []) ++
    retained allData cols filteredIndex.
Proof.
  intros Hrow. unfold retained, keptIndices. simpl.
  assert (finiteAt allData cols index = positionFinite cols row) as ->.
  { unfold finiteAt. by rewrite Hrow. }
  assert (datumAt allData index = Some {| Datum.data := row |}) as Hd.
  { unfold datumAt. by rewrite Hrow. }
  destruct (positionFinite cols row); [|done].
  simpl. by rewrite Hd.
Qed.

Lemma reduce_keepFinite allData getPosition cols filteredIndex accu :
  (∀ d, applyPos getPosition d = pointPosAccessor cols d) →
  inRange allData filteredIndex →
  reduce (keepFinite allData getPosition) filteredIndex accu =
    Some (accu ++ retained allData cols filteredIndex).
Proof.
  intros Hpos Hin. revert accu.
  induction Hin as [|index filteredIndex Hlt _ IH]; intros accu.
  - by rewrite app_nil_r.
  - destruct (lookup_lt_is_Some_2 allData index Hlt) as [row Hrow].
    rewrite (retained_cons _ _ _ _ _ Hrow).
    assert (keepFinite allData getPosition accu index =
            Some (if positionFinite cols row
                  then accu ++ [{| Datum.data := row |}] else accu)) as Hstep.
    { unfold keepFinite. rewrite Hrow.
      cbv beta iota zeta delta [mbind option_bind]. rewrite Hpos.
      fold (positionFinite cols row). by destruct (positionFinite cols row). }
    change (keepFinite allData getPosition accu index ≫=
            reduce (keepFinite allData getPosition) filteredIndex =
            Some (accu ++ (if positionFinite cols row
                           then [{| Datum.data := row |}] else []) ++
                  retained allData cols filteredIndex)).
    rewrite Hstep. simpl. rewrite IH.
    destruct (positionFinite cols row); simpl; [by rewrite <-app_assoc|done].
Qed.


(** The kept rows are the rows at the kept indices, one for one. *)
Lemma retained_rows allData cols filteredIndex :
  Some <$> retained allData cols filteredIndex =
  datumAt allData <$> keptIndices allData cols filteredIndex.
Proof.
  unfold retained, keptIndices.
  induction filteredIndex as [|index filteredIndex IH]; [done|]. simpl.
  destruct (finiteAt allData cols index) eqn:Hfin; [|done].
  unfold finiteAt in Hfin.
  destruct (allData !! index) as [row|] eqn:Hrow; [|done].
  assert (datumAt allData index = Some {| Datum.data := row |}) as Hd.
  { unfold datumAt. by rewrite Hrow. }
  simpl. rewrite Hd. simpl. f_equal. apply IH.
Qed.

(** Lines 230-254. *)
Lemma filterRows_reuse allData filteredIndex old opt getPosition L :
  rowsReused (Some old) opt getPosition = true →
  filterRows allData filteredIndex (Some old) opt getPosition L =
    (L, Some (LayerData.data old)).
Proof. unfold filterRows, rowsReused. by intros ->. Qed.

Lemma filterRows_rebuild allData filteredIndex old opt getPosition L :
  rowsReused old opt getPosition = false →
  filterRows allData filteredIndex old opt getPosition L =
    (set_nextRef (S (nextRef L)) L,
     (λ accu, {| arr_ref := nextRef L; items := accu |}) <$>
       reduce (keepFinite allData getPosition) filteredIndex []).
Proof.
  unfold filterRows, rowsReused. intros Hre.
  assert (∀ L, (r <- newRef ;;
             accu <- lift (reduce (keepFinite allData getPosition) filteredIndex []) ;;
             ret {| arr_ref := r; items := accu |}) L =
          (set_nextRef (S (nextRef L)) L,
           (λ accu, {| arr_ref := nextRef L; items := accu |}) <$>
             reduce (keepFinite allData getPosition) filteredIndex [])) as Heq.
  { intros L0. rewrite (bind_run _ _ _ _ _ (newRef_eq L0)).
    unfold bind, lift, ret. by destruct (reduce _ _ _). }
  destruct old as [old|]; [|apply Heq]. rewrite Hre. apply Heq.
Qed.

Lemma filterRows_run allData filteredIndex old opt getPosition L L' r :
  filterRows allData filteredIndex old opt getPosition L = (L', r) →
  grows L L' ∧ quiet L L' ∧ (wf L → wf L').
Proof.
  destruct (rowsReused old opt getPosition) eqn:Hre.
  - destruct old as [old|]; [|done].
    rewrite (filterRows_reuse _ _ _ _ _ _ Hre). intros [= <- <-].
    split; [reflexivity|]. split; [apply quiet_refl|done].
  - rewrite (filterRows_rebuild _ _ _ _ _ _ Hre). intros [= <- <-].
    split; [apply set_nextRef_grows; lia|]. split; [done|].
    apply set_nextRef_wf; lia.
Qed.

(** Lines 258-269. *)
Lemma collectCharacters_reuse tl data old opt getText L :
  charactersReused (Some old) opt getText = true →
  collectCharacters tl data (Some old) opt getText L =
    (L, Some (LayerData.labelCharacterSet old)).
Proof. unfold collectCharacters, charactersReused. by intros ->. Qed.

Lemma collectCharacters_recompute tl data old opt getText L :
  charactersReused old opt getText = false →
  collectCharacters tl data old opt getText L =
    match (if field tl is Some _ then map_throw (applyText getText) (items data)
           else Some []) with
    | Some textLabels =>
        (set_nextRef (S (nextRef L)) L,
         Some {| arr_ref := nextRef L; items := uniq (join textLabels) |})
    | None => (L, None)
    end.
Proof.
  unfold collectCharacters, charactersReused. intros Hre.
  set (labels := if field tl is Some _ then _ else _).
  assert (∀ L, (textLabels <- lift labels ;; newArr (uniq (join textLabels))) L =
          match labels with
          | Some textLabels =>
              (set_nextRef (S (nextRef L)) L,
               Some {| arr_ref := nextRef L; items := uniq (join textLabels) |})
          | None => (L, None)
          end) as Heq.
  { intros L0. unfold bind, lift. by destruct labels. }
  destruct old as [old|]; [|apply Heq]. rewrite Hre. apply Heq.
Qed.

Lemma collectCharacters_run tl data old opt getText L L' r :
  collectCharacters tl data old opt getText L = (L', r) →
  grows L L' ∧ quiet L L' ∧ (wf L → wf L').
Proof.
  destruct (charactersReused old opt getText) eqn:Hre.
  - destruct old as [old|]; [|done].
    rewrite (collectCharacters_reuse _ _ _ _ _ _ Hre). intros [= <- <-].
    split; [reflexivity|]. split; [apply quiet_refl|done].
  - rewrite (collectCharacters_recompute _ _ _ _ _ _ Hre).
    destruct (if field tl is Some _ then _ else _); intros [= <- <-].
    + split; [apply set_nextRef_grows; lia|]. split; [done|].
      apply set_nextRef_wf; lia.
    + split; [reflexivity|]. split; [apply quiet_refl|done].
Qed.

End Blocks.

(** ** A pass of [formatLayerData], step by step *)

Section Pass.
Context `{BL : BaseLayer}.

(** The pass after its first two steps: the accessor is looked up, the
    bounds are refreshed if they are stale, and the rest runs from there. *)
Lemma formatLayerData_eq allData filteredIndex old opt L L1 getPosition :
  getPositionAccessor L = (L1, Some getPosition) →
  formatLayerData allData filteredIndex old opt L =
    (data <- filterRows allData filteredIndex old opt getPosition ;;
     getText <- getTextMemo (textLabel (config L)) ;;
     characters <- collectCharacters (textLabel (config L)) data old opt getText ;;
     ret (descriptor (config L) data characters getPosition getText))
    (if boundsStale old getPosition
     then set_bounds allData getPosition (boundsOf allData getPosition) L1
     else L1).
Proof.
  intros Hpos. unfold formatLayerData.
  rewrite (bind_run this _ L L L eq_refl). cbv beta zeta.
  rewrite (bind_run _ _ _ _ _ Hpos).
  destruct (getPositionAccessor_run _ _ _ Hpos) as (f & [= <-] & Hf & Hg & _).
  rewrite <-(grows_config _ _ Hg) in Hf.
  rewrite (bind_run _ _ _ _ _ (refreshBounds_eq allData old _ _ Hf)).
  unfold descriptor, boundsOf.
  by destruct (colorField (config L)), (strokeColorField (config L)),
    (sizeField (config L)).
Qed.

(** The layer a pass leaves behind, also when it throws. *)
Lemma formatLayerData_state allData filteredIndex old opt L L1 getPosition :
  getPositionAccessor L = (L1, Some getPosition) →
  let L2 := if boundsStale old getPosition
            then set_bounds allData getPosition (boundsOf allData getPosition) L1
            else L1 in
  let L' := (formatLayerData allData filteredIndex old opt L).1 in
  grows L2 L' ∧ quiet L2 L' ∧ (wf L2 → wf L').
Proof.
  intros Hpos L2 L'. unfold L'. rewrite (formatLayerData_eq _ _ _ _ _ _ _ Hpos).
  fold L2. clearbody L2.
  destruct (filterRows allData filteredIndex old opt getPosition L2)
    as [L3 [data|]] eqn:Hrows;
    [rewrite (bind_run _ _ _ _ _ Hrows)|rewrite (bind_throw _ _ _ _ Hrows)];
    destruct (filterRows_run _ _ _ _ _ _ _ _ Hrows) as (G3 & Q3 & W3); [|done].
  destruct (getTextMemo (textLabel (config L)) L3) as [L4 [getText|]] eqn:Htext;
    [rewrite (bind_run _ _ _ _ _ Htext)|rewrite (bind_throw _ _ _ _ Htext)];
    destruct (getTextMemo_run _ _ _ _ Htext) as (g & ? & _ & G4 & Q4 & W4);
    [|done].
  destruct (collectCharacters (textLabel (config L)) data old opt getText L4)
    as [L5 [characters|]] eqn:Hchars;
    [rewrite (bind_run _ _ _ _ _ Hchars)|rewrite (bind_throw _ _ _ _ Hchars)];
    destruct (collectCharacters_run _ _ _ _ _ _ _ _ Hchars) as (G5 & Q5 & W5);
    simpl.
  all: split; [by do 2 (etrans; [eassumption|])|].
  all: split; [eauto using quiet_trans|auto].
Qed.

(** A pass that returned, taken apart. *)
Lemma formatLayerData_inv allData filteredIndex old opt L L' out :
  formatLayerData allData filteredIndex old opt L = (L', Some out) →
  ∃ L1 L3 L4,
    let getPosition := LayerData.getPosition out in
    let getText := LayerData.getText out in
    let L2 := if boundsStale old getPosition
              then set_bounds allData getPosition (boundsOf allData getPosition) L1
              else L1 in
    getPositionAccessor L = (L1, Some getPosition) ∧
    filterRows allData filteredIndex old opt getPosition L2 =
      (L3, Some (LayerData.data out)) ∧
    getTextMemo (textLabel (config L)) L3 = (L4, Some getText) ∧
    collectCharacters (textLabel (config L)) (LayerData.data out) old opt getText L4 =
      (L', Some (LayerData.labelCharacterSet out)) ∧
    out = descriptor (config L) (LayerData.data out)
            (LayerData.labelCharacterSet out) getPosition getText.
Proof.
  destruct (getPositionAccessor L) as [L1 r] eqn:Hpos.
  destruct (getPositionAccessor_run _ _ _ Hpos) as (getPosition & -> & _).
  rewrite (formatLayerData_eq _ _ _ _ _ _ _ Hpos).
  set (L2 := if boundsStale old getPosition then _ else _).
  destruct (filterRows allData filteredIndex old opt getPosition L2)
    as [L3 [data|]] eqn:Hrows;
    [rewrite (bind_run _ _ _ _ _ Hrows)|by rewrite (bind_throw _ _ _ _ Hrows)].
  destruct (getTextMemo (textLabel (config L)) L3) as [L4 [getText|]] eqn:Htext;
    [rewrite (bind_run _ _ _ _ _ Htext)|by rewrite (bind_throw _ _ _ _ Htext)].
  destruct (collectCharacters (textLabel (config L)) data old opt getText L4)
    as [L5 [characters|]] eqn:Hchars;
    [rewrite (bind_run _ _ _ _ _ Hchars)|by rewrite (bind_throw _ _ _ _ Hchars)].
  intros [= <- <-]. by exists L1, L3, L4.
Qed.

End Pass.

(** ** What a pass leaves in the caches *)

Section Caches.
Context `{BL : BaseLayer}.

Lemma formatLayerData_run allData filteredIndex old opt L :
  let L' := (formatLayerData allData filteredIndex old opt L).1 in
  grows L L' ∧ (wf L → wf L').
Proof.
  intros L'. destruct (getPositionAccessor L) as [L1 r] eqn:Hpos.
  destruct (getPositionAccessor_run _ _ _ Hpos) as (getPosition & -> & _ & G1 & _ & W1).
  destruct (formatLayerData_state allData filteredIndex old opt _ _ _ Hpos)
    as (G & _ & W). fold L' in G, W.
  destruct (boundsStale old getPosition).
  - split; [|by auto using set_bounds_wf].
    etrans; [exact G1|]. etrans; [apply set_bounds_grows|exact G].
  - split; [by etrans|auto].
Qed.

(** The accessors a pass returns are the ones its caches hold for the
    layer's configuration. *)
Lemma formatLayerData_cached allData filteredIndex old opt L L' out :
  formatLayerData allData filteredIndex old opt L = (L', Some out) →
  config L' = config L ∧
  getPosition_cache L' !! pointPosResolver (columns (config L)) =
    Some (LayerData.getPosition out) ∧
  getText_cache L' !! pointLabelResolver (textLabel (config L)) =
    Some (LayerData.getText out).
Proof.
  intros Hrun.
  destruct (formatLayerData_run allData filteredIndex old opt L) as [G _].
  rewrite Hrun in G. simpl in G.
  destruct (formatLayerData_inv _ _ _ _ _ _ _ Hrun)
    as (L1 & L3 & L4 & Hpos & Hrows & Htext & Hchars & _).
  destruct (getPositionAccessor_run _ _ _ Hpos) as (f & [= <-] & Hf & G1 & _).
  destruct (getTextMemo_run _ _ _ _ Htext) as (g & [= <-] & Hg & _).
  destruct (collectCharacters_run _ _ _ _ _ _ _ _ Hchars) as (G5 & _).
  destruct (formatLayerData_state allData filteredIndex old opt _ _ _ Hpos)
    as (G2 & _). rewrite Hrun in G2. simpl in G2.
  split; [apply G|]. split.
  - eapply lookup_weaken; [|apply G2].
    destruct (boundsStale old _); exact Hf.
  - eapply lookup_weaken; [exact Hg|apply G5].
Qed.

Lemma samePos_refl f : samePos f f = true.
Proof. unfold samePos. by apply bool_decide_eq_true. Qed.

Lemma sameText_refl g : sameText g g = true.
Proof. unfold sameText. by apply bool_decide_eq_true. Qed.

End Caches.

(** ** Memoization and reuse *)

Section Reuse.
Context `{BL : BaseLayer}.

(** C3: bindings with the same three field indices (and an altitude entry
    in both or in neither) get one and the same accessor function from the
    layer's memoized [getPosition], however the binding objects differ
    otherwise and whatever the layer did in between. *)
Theorem C3_same_indices_same_accessor (b1 b2 : Columns) (L L1 L2 : Layer)
    (r1 : option PosAccessor) :
  fieldIdx (lat b1) = fieldIdx (lat b2) →
  fieldIdx (lng b1) = fieldIdx (lng b2) →
  fieldIdx <$> altitude b1 = fieldIdx <$> altitude b2 →
  getPositionMemo b1 L = (L1, r1) →
  getPosition_cache L1 ⊆ getPosition_cache L2 →
  ∃ f, r1 = Some f ∧ getPositionMemo b2 L2 = (L2, Some f).
Proof.
  intros Hlat Hlng Halt Hrun Hsub.
  destruct (getPositionMemo_run _ _ _ _ Hrun) as (f & -> & Hf & _).
  exists f. split; [done|]. apply getPositionMemo_hit.
  rewrite <-(pointPosResolver_ext b1 b2) by done.
  by eapply lookup_weaken.
Qed.

(** C2: a second pass on the same layer, with the configuration as it was,
    the first pass's result as [oldLayerData] and [sameData] set, returns
    the very arrays [data] and [labelCharacterSet] of the first pass. It
    allocates nothing and leaves the layer as it was, and it returns this
    for whatever table and filtered indices it is given: the rows are not
    read. *)
Theorem C2_warm_pass_returns_cached_arrays allData filteredIndex old opt
    (L L1 : Layer) (out1 : LayerData.t) :
  formatLayerData allData filteredIndex old opt L = (L1, Some out1) →
  ∃ out2,
    formatLayerData allData filteredIndex (Some out1) {| sameData := true |} L1 =
      (L1, Some out2) ∧
    LayerData.data out2 = LayerData.data out1 ∧
    LayerData.labelCharacterSet out2 = LayerData.labelCharacterSet out1 ∧
    ∀ allData' filteredIndex',
      formatLayerData allData' filteredIndex' (Some out1) {| sameData := true |} L1 =
        (L1, Some out2).
Proof.
  intros Hrun.
  destruct (formatLayerData_cached _ _ _ _ _ _ _ Hrun) as (Hcfg & Hpos & Htext).
  rewrite <-Hcfg in Hpos, Htext.
  assert (∀ allData' filteredIndex',
    formatLayerData allData' filteredIndex' (Some out1) {| sameData := true |} L1 =
      (L1, Some (descriptor (config L1) (LayerData.data out1)
                   (LayerData.labelCharacterSet out1)
                   (LayerData.getPosition out1) (LayerData.getText out1)))) as Heq.
  { intros allData' filteredIndex'.
    rewrite (formatLayerData_eq _ _ _ _ _ _ _ (getPositionAccessor_hit _ _ Hpos)).
    assert (boundsStale (Some out1) (LayerData.getPosition out1) = false) as ->.
    { unfold boundsStale. by rewrite samePos_refl. }
    erewrite bind_run; [|apply filterRows_reuse; simpl; apply samePos_refl].
    erewrite bind_run; [|by apply getTextMemo_hit].
    erewrite bind_run; [|apply collectCharacters_reuse; simpl; apply sameText_refl].
    done. }
  eexists. split; [apply Heq|]. by repeat split.
Qed.

End Reuse.

(** ** Bounds *)

Section BoundsTracking.
Context `{BL : BaseLayer}.

Lemma boundsStale_iff old getPosition :
  boundsStale old getPosition = true ↔
  old = None ∨
  ∃ o, old = Some o ∧ pos_ref (LayerData.getPosition o) ≠ pos_ref getPosition.
Proof.
  unfold boundsStale, samePos. destruct old as [o|].
  - rewrite negb_true_iff, bool_decide_eq_false. split.
    + intros Hne. right. by exists o.
    + by intros [|(o' & [= <-] & Hne)].
  - split; [by left|done].
Qed.

(** C4: in a pass of [formatLayerData], [updateLayerMeta] runs, on the whole
    table [allData] and with the current accessor, exactly when there is no
    previous result or the previous result's accessor is another function
    than the current one. In every other pass the layer's [meta] and the
    history of bounds computations are as before, whatever [opt.sameData]
    and the filtered indices are, and also if the pass throws later. *)
Theorem C4_bounds_recomputed_iff_accessor_changed allData filteredIndex old opt
    (L : Layer) :
  ∃ L1 getPosition,
    getPositionAccessor L = (L1, Some getPosition) ∧
    let L' := (formatLayerData allData filteredIndex old opt L).1 in
    let stale :=
      old = None ∨
      ∃ o, old = Some o ∧ pos_ref (LayerData.getPosition o) ≠ pos_ref getPosition in
    (metaCalls L' ≠ metaCalls L ↔ stale) ∧
    (stale →
       metaCalls L' = (allData, getPosition) :: metaCalls L ∧
       meta L' = updateMeta (meta L)
                   (getPointsBounds allData
                      (λ d, applyPos getPosition {| Datum.data := d |}))) ∧
    (¬ stale → metaCalls L' = metaCalls L ∧ meta L' = meta L).
Proof.
  destruct (getPositionAccessor L) as [L1 r] eqn:Hpos.
  destruct (getPositionAccessor_run _ _ _ Hpos) as (getPosition & -> & _ & _ & Q1 & _).
  exists L1, getPosition. split; [done|]. intros L' stale.
  destruct (formatLayerData_state allData filteredIndex old opt _ _ _ Hpos)
    as (_ & Q & _). fold L' in Q.
  pose proof (boundsStale_iff old getPosition) as Hiff. fold stale in Hiff.
  destruct Q1 as [Hm1 Hc1], Q as [Hm Hc].
  destruct (boundsStale old getPosition); simpl in Hm, Hc.
  - assert stale as Hs by by apply Hiff.
    rewrite Hm1 in Hm. rewrite Hc1 in Hc.
    split; [|split; [done|tauto]].
    split; [done|]. intros _. rewrite Hc. intros E.
    apply (f_equal length) in E. simpl in E. lia.
  - assert (¬ stale) as Hs by (intros Hs; by apply Hiff in Hs).
    rewrite Hm1 in Hm. rewrite Hc1 in Hc.
    split; [|split; [tauto|done]].
    split; [by rewrite Hc|tauto].
Qed.

End BoundsTracking.

(** ** Channel accessors *)

Section Channels.
Context `{BL : BaseLayer}.

(** C7: in the object a pass returns, the accessor of a channel without a
    bound field is a constant, so it yields one value for every row: [1]
    for the radius when no size field is bound, the layer's [color] for the
    fill color when no color field is bound, and for the line color, when no
    stroke color field is bound, the configured [strokeColor], or the
    layer's [color] if no stroke color is configured. *)
Theorem C7_unbound_channel_constant allData filteredIndex old opt
    (L L' : Layer) (out : LayerData.t) :
  formatLayerData allData filteredIndex old opt L = (L', Some out) →
  (sizeField (config L) = None →
     LayerData.getRadius out = Constant (CNumber (Finite (inject_Z 1))) ∧
     ∀ d, applyAccessor (LayerData.getRadius out) d = CNumber (Finite (inject_Z 1))) ∧
  (colorField (config L) = None →
     LayerData.getFillColor out = Constant (CColor (color (config L))) ∧
     ∀ d, applyAccessor (LayerData.getFillColor out) d = CColor (color (config L))) ∧
  (strokeColorField (config L) = None →
     ∀ d, applyAccessor (LayerData.getLineColor out) d =
          CColor (match strokeColor (visConfig (config L)) with
                  | Some stroke => stroke
                  | None => color (config L)
                  end)).
Proof.
  intros Hrun.
  destruct (formatLayerData_inv _ _ _ _ _ _ _ Hrun) as (? & ? & ? & _ & _ & _ & _ & ->).
  unfold descriptor. simpl. split; [|split].
  - by intros ->.
  - by intros ->.
  - intros -> d. by destruct (strokeColor _).
Qed.

End Channels.

(** ** The rows of a pass *)

Section Rows.
Context `{BL : BaseLayer}.

Lemma map_throw_total {A B} (f : A → option B) (g : A → B) (l : list A) :
  (∀ x, f x = Some (g x)) → map_throw f l = Some (g <$> l).
Proof.
  intros Hf. induction l as [|x l IH]; [done|].
  simpl. rewrite Hf, IH. done.
Qed.

(** With a sound cache the label accessor prints the cell of the current
    label field and does not throw. *)
Lemma cached_label_current (L : Layer) tl g f d :
  wf L → getText_cache L !! pointLabelResolver tl = Some g →
  field tl = Some f →
  applyText g d = Some (String_of (getIdx (Datum.data d) (tableFieldIndex f - 1))).
Proof.
  intros HL Hg Hf. unfold applyText.
  rewrite (pointLabelAccessor_key _ tl) by by apply (wf_text_key _ HL).
  unfold pointLabelAccessor. by rewrite Hf.
Qed.

Lemma collectCharacters_returns (L : Layer) tl data old opt getText :
  wf L → getText_cache L !! pointLabelResolver tl = Some getText →
  ∃ L' characters,
    collectCharacters tl data old opt getText L = (L', Some characters).
Proof.
  intros HL Hg. destruct (charactersReused old opt getText) eqn:Hre.
  - destruct old as [old|]; [|done].
    rewrite (collectCharacters_reuse _ _ _ _ _ _ Hre). eauto.
  - rewrite (collectCharacters_recompute _ _ _ _ _ _ Hre).
    destruct (field tl) as [f|] eqn:Hf; [|eauto].
    erewrite map_throw_total; [eauto|].
    intros d. by apply (cached_label_current L tl).
Qed.

Lemma rowsReused_false_iff old opt getPosition :
  rowsReused old opt getPosition = false ↔
  old = None ∨ sameData opt = false ∨
  ∃ o, old = Some o ∧ pos_ref (LayerData.getPosition o) ≠ pos_ref getPosition.
Proof.
  unfold rowsReused, samePos. destruct old as [o|].
  - rewrite andb_false_iff, bool_decide_eq_false. split.
    + intros [?|?]; [by right; left|]. right. right. by exists o.
    + intros [|[?|(o' & [= <-] & ?)]]; [done|by left|by right].
  - split; [by left|done].
Qed.

(** A pass from a sound layer that does not reuse the previous rows
    returns, with the kept rows of the filtered indices in a new array. *)
Lemma formatLayerData_rebuild allData filteredIndex old opt (L L1 : Layer) getPosition :
  wf L → inRange allData filteredIndex →
  getPositionAccessor L = (L1, Some getPosition) →
  rowsReused old opt getPosition = false →
  ∃ L' out,
    formatLayerData allData filteredIndex old opt L = (L', Some out) ∧
    LayerData.getPosition out = getPosition ∧
    LayerData.data out =
      {| arr_ref := nextRef L1;
         items := retained allData (columns (config L)) filteredIndex |}.
Proof.
  intros HL Hin Hpos Hre.
  destruct (getPositionAccessor_run _ _ _ Hpos) as (f & [= <-] & Hf & G1 & _ & W1).
  rewrite (formatLayerData_eq _ _ _ _ _ _ _ Hpos).
  set (L2 := if boundsStale old getPosition then _ else _).
  assert (wf L2 ∧ grows L1 L2 ∧ nextRef L2 = nextRef L1) as (W2 & G2 & N2).
  { unfold L2. destruct (boundsStale old getPosition).
    - split; [by apply set_bounds_wf, W1|]. split; [apply set_bounds_grows|done].
    - split; [by apply W1|]. split; [reflexivity|done]. }
  assert (filterRows allData filteredIndex old opt getPosition L2 =
          (set_nextRef (S (nextRef L2)) L2,
           Some {| arr_ref := nextRef L2;
                   items := retained allData (columns (config L)) filteredIndex |}))
    as Hrows.
  { rewrite (filterRows_rebuild _ _ _ _ _ L2 Hre).
    rewrite (reduce_keepFinite _ _ (columns (config L))); [done| |done].
    intros d. rewrite <-(grows_config _ _ G1).
    apply (cached_accessor_current L1); [by auto|].
    by rewrite (grows_config _ _ G1). }
  rewrite (bind_run _ _ _ _ _ Hrows).
  destruct (getTextMemo (textLabel (config L)) (set_nextRef (S (nextRef L2)) L2))
    as [L4 r] eqn:Htext.
  destruct (getTextMemo_run _ _ _ _ Htext) as (getText & -> & Hg & _ & _ & W4).
  rewrite (bind_run _ _ _ _ _ Htext).
  edestruct (collectCharacters_returns L4) as (L' & characters & Hchars);
    [apply W4, set_nextRef_wf; [lia|done]|exact Hg|].
  rewrite (bind_run _ _ _ _ _ Hchars).
  eexists _, _. split; [done|]. simpl. by rewrite N2.
Qed.

Lemma position_coordinates (cols : Columns) (d : Datum.t) :
  ∃ z, pointPosAccessor cols d =
         [getIdx (Datum.data d) (fieldIdx (lng cols));
          getIdx (Datum.data d) (fieldIdx (lat cols)); z] ∧
       ((altitude cols = None ∨ ∃ alt, altitude cols = Some alt ∧ fieldIdx alt = -1) →
        z = num 0).
Proof.
  unfold pointPosAccessor. eexists. split; [done|].
  intros [->|(alt & -> & Halt)]; [done|]. case_decide; [lia|done].
Qed.

Lemma retained_elem allData cols filteredIndex index row :
  index ∈ filteredIndex → allData !! index = Some row →
  {| Datum.data := row |} ∈ retained allData cols filteredIndex ↔
  positionFinite cols row = true.
Proof.
  intros Hin Hrow. unfold retained, keptIndices. rewrite list_elem_of_omap. split.
  - intros (i & Hi & Hd). apply list_elem_of_In, filter_In in Hi as [_ Hfin].
    unfold finiteAt in Hfin. unfold datumAt in Hd.
    destruct (allData !! i) as [row'|]; [|done]. by simplify_eq/=.
  - intros Hfin. exists index. split.
    + apply list_elem_of_In, filter_In. split; [by apply list_elem_of_In|].
      unfold finiteAt. by rewrite Hrow.
    + unfold datumAt. by rewrite Hrow.
Qed.

End Rows.

(** ** The filtering law *)

Section Filtering.
Context `{BL : BaseLayer}.

Lemma newLayer_wf i (cfg : Config) m n : wf (newLayer i cfg m n).
Proof. split; simpl; intros *; by rewrite lookup_empty. Qed.

Lemma bindColumns_wf cols (L : Layer) : wf L → wf (bindColumns cols L).
Proof. by intros []. Qed.

(** C1 (amended): from a layer with a sound accessor cache and with
    filtered indices that all address a row of the table, a pass that does
    not reuse the previous rows (there is no previous result, or
    [opt.sameData] is not set, or the previous result's accessor is another
    function than the current one) returns, and its rows are exactly the
    rows at those filtered indices whose three derived coordinates
    [[lng, lat, altitude]] are all finite numbers, in the order of the
    filtered indices; the altitude coordinate is [0] when the altitude
    binding is absent or has [fieldIdx = -1]. *)
Theorem C1_rebuilt_rows_finite_in_order allData filteredIndex old opt
    (L L1 : Layer) (getPosition : PosAccessor) :
  wf L → inRange allData filteredIndex →
  getPositionAccessor L = (L1, Some getPosition) →
  (old = None ∨ sameData opt = false ∨
   ∃ o, old = Some o ∧ pos_ref (LayerData.getPosition o) ≠ pos_ref getPosition) →
  let cols := columns (config L) in
  ∃ L' out,
    formatLayerData allData filteredIndex old opt L = (L', Some out) ∧
    let rows := items (LayerData.data out) in
    (∀ d, applyPos (LayerData.getPosition out) d = pointPosAccessor cols d) ∧
    Some <$> rows =
      datumAt allData <$> List.filter (finiteAt allData cols) filteredIndex ∧
    (∀ index row, index ∈ filteredIndex → allData !! index = Some row →
       {| Datum.data := row |} ∈ rows ↔
       forallb Number_isFinite
         (applyPos (LayerData.getPosition out) {| Datum.data := row |}) = true) ∧
    (∀ row, ∃ z,
       applyPos (LayerData.getPosition out) {| Datum.data := row |} =
         [getIdx row (fieldIdx (lng cols)); getIdx row (fieldIdx (lat cols)); z] ∧
       ((altitude cols = None ∨
         ∃ alt, altitude cols = Some alt ∧ fieldIdx alt = -1) → z = num 0)).
Proof.
  intros HL Hin Hpos Hre%rowsReused_false_iff cols.
  destruct (formatLayerData_rebuild _ _ _ _ _ _ _ HL Hin Hpos Hre)
    as (L' & out & Hrun & Hgp & Hdata).
  exists L', out. split; [done|]. rewrite Hdata. cbv zeta. cbn [items].
  destruct (getPositionAccessor_run _ _ _ Hpos) as (f & [= <-] & Hf & G1 & _ & W1).
  assert (∀ d, applyPos (LayerData.getPosition out) d = pointPosAccessor cols d)
    as Hacc.
  { intros d. rewrite Hgp. unfold cols. rewrite <-(grows_config _ _ G1).
    apply (cached_accessor_current L1); [by auto|].
    by rewrite (grows_config _ _ G1). }
  split; [done|]. split; [apply retained_rows|]. split.
  - intros index row Hi Hrow. rewrite Hacc.
    exact (retained_elem _ _ _ _ _ Hi Hrow).
  - intros row. rewrite Hacc. apply position_coordinates.
Qed.

(** C8: for the table [[{lng: 1, lat: 10}, {lng: NaN, lat: 20}]], columns
    with [lat.fieldIdx = 1] and [lng.fieldIdx = 0], an altitude binding that
    is absent ([unbound = true]) or has [fieldIdx = -1], and the filtered
    indices [[0, 1]], a first pass of a new layer returns exactly row 0,
    whose position is [[1, 10, 0]]; row 1 is left out, its longitude [NaN]
    is not a finite number. *)
Theorem C8_worked_example (i : string) (cfg : Config) (m : Meta) (n : nat)
    (opt : Options) (unbound : bool) :
  let alt := if unbound then None
             else Some {| col_value := None; fieldIdx := -1; optional := true |} in
  let L := newLayer i (set_columns (sampleColumns alt) cfg) m n in
  ∃ L' out,
    formatLayerData sampleRows [0; 1]%nat None opt L = (L', Some out) ∧
    items (LayerData.data out) = [{| Datum.data := [num 1; num 10] |}] ∧
    applyPos (LayerData.getPosition out) {| Datum.data := [num 1; num 10] |} =
      [num 1; num 10; num 0] ∧
    applyPos (LayerData.getPosition out) {| Datum.data := [VNumber NaN; num 20] |} =
      [VNumber NaN; num 20; num 0] ∧
    Number_isFinite (VNumber NaN) = false.
Proof.
  intros alt L.
  destruct (getPositionAccessor L) as [L1 r] eqn:Hpos.
  destruct (getPositionAccessor_run _ _ _ Hpos) as (f & -> & Hf & G1 & _ & W1).
  destruct (formatLayerData_rebuild sampleRows [0; 1]%nat None opt L L1 f)
    as (L' & out & Hrun & Hgp & Hdata);
    [apply newLayer_wf|by repeat constructor|done|done|].
  exists L', out. split; [done|]. rewrite Hdata, Hgp. cbn [items].
  assert (∀ d, applyPos f d = pointPosAccessor (sampleColumns alt) d) as Hacc.
  { intros d. apply pointPosAccessor_key. apply (wf_pos_key L1); [|done].
    apply W1, newLayer_wf. }
  rewrite !Hacc. by destruct unbound.
Qed.

End Filtering.

(** ** Cache invalidation *)

Lemma string_app_assoc (s1 s2 s3 : string) :
  (s1 +:+ s2) +:+ s3 = s1 +:+ s2 +:+ s3.
Proof.
  induction s1 as [|c s1 IH]; [done|].
  change (String c ((s1 +:+ s2) +:+ s3) = String c (s1 +:+ s2 +:+ s3)).
  by rewrite IH.
Qed.

Section Invalidation.
Context `{BL : BaseLayer}.

(** After a pass, a configuration edit that rebinds the columns to a
    binding with another key makes the next pass a cold one, [sameData] or
    not: the accessor is another function, the bounds are taken again on
    the table of that pass, and the rows are filtered again into a new
    array. *)
Lemma rebinding_forces_cold_pass allData filteredIndex old opt
    (L L1 : Layer) (out1 : LayerData.t) (cols2 : Columns)
    allData2 filteredIndex2 opt2 :
  wf L →
  formatLayerData allData filteredIndex old opt L = (L1, Some out1) →
  pointPosResolver cols2 ≠ pointPosResolver (columns (config L)) →
  inRange allData2 filteredIndex2 →
  ∃ L2 out2,
    formatLayerData allData2 filteredIndex2 (Some out1) opt2 (bindColumns cols2 L1) =
      (L2, Some out2) ∧
    pos_ref (LayerData.getPosition out2) ≠ pos_ref (LayerData.getPosition out1) ∧
    (∀ d, applyPos (LayerData.getPosition out2) d = pointPosAccessor cols2 d) ∧
    metaCalls L2 = (allData2, LayerData.getPosition out2) :: metaCalls L1 ∧
    meta L2 = updateMeta (meta L1)
                (getPointsBounds allData2
                   (λ d, applyPos (LayerData.getPosition out2) {| Datum.data := d |})) ∧
    items (LayerData.data out2) = retained allData2 cols2 filteredIndex2 ∧
    (nextRef L1 ≤ arr_ref (LayerData.data out2))%nat.
Proof.
  intros HL Hrun Hkey Hin.
  destruct (formatLayerData_run allData filteredIndex old opt L) as [_ W].
  rewrite Hrun in W. simpl in W. specialize (W HL).
  destruct (formatLayerData_cached _ _ _ _ _ _ _ Hrun) as (_ & Hc1 & _).
  set (L1' := bindColumns cols2 L1).
  assert (wf L1') as W1' by by apply bindColumns_wf.
  destruct (getPositionAccessor L1') as [L1'' r] eqn:Hpos.
  destruct (getPositionAccessor_run _ _ _ Hpos) as (f & -> & Hf & G & Q & Wf).
  specialize (Wf W1').
  assert (pos_ref (LayerData.getPosition out1) ≠ pos_ref f) as Href.
  { intros Href. apply Hkey. symmetry.
    apply (wf_pos_inj _ Wf _ _ _ _ (lookup_weaken _ _ _ _ Hc1 (grows_pos _ _ G)) Hf Href). }
  assert (boundsStale (Some out1) f = true) as Hstale.
  { apply boundsStale_iff. right. by exists out1. }
  destruct (formatLayerData_rebuild allData2 filteredIndex2 (Some out1) opt2 L1' L1'' f)
    as (L2 & out2 & Hrun2 & Hgp & Hdata); [done..| |].
  { apply rowsReused_false_iff. right. right. by exists out1. }
  destruct (formatLayerData_state allData2 filteredIndex2 (Some out1) opt2 _ _ _ Hpos)
    as (_ & [Hm Hc] & _).
  rewrite Hrun2, Hstale in Hm, Hc. simpl in Hm, Hc.
  destruct Q as [Qm Qc]. rewrite Qm in Hm. rewrite Qc in Hc.
  exists L2, out2. rewrite Hgp, Hdata. simpl.
  repeat split; try done.
  - intros d. apply pointPosAccessor_key. apply (wf_pos_key _ Wf _ _ Hf).
  - apply (grows_ref _ _ G).
Qed.

Lemma key_changes_with_altitude_index (c1 c2 : Columns) :
  fieldIdx <$> altitude c1 ≠ fieldIdx <$> altitude c2 →
  pointPosResolver c2 ≠ pointPosResolver c1.
Proof. intros Hne Heq. by apply pointPosResolver_inj in Heq as (_ & _ & ?). Qed.

(** C5: when, between two passes, the altitude binding goes from unbound
    ([fieldIdx = -1]) to a bound column ([fieldIdx > -1]), the next pass is
    cold even with [opt.sameData] set: it works with another accessor
    function, [updateLayerMeta] recomputes the bounds on that pass's table,
    and the rows are filtered again, by the new binding, into a new array
    instead of being taken from the previous result. *)
Theorem C5_binding_altitude_forces_cold_pass allData filteredIndex old opt
    (L L1 : Layer) (out1 : LayerData.t) (alt1 alt2 : Column) (cols2 : Columns)
    allData2 filteredIndex2 :
  wf L →
  altitude (columns (config L)) = Some alt1 → fieldIdx alt1 = -1 →
  altitude cols2 = Some alt2 → fieldIdx alt2 > -1 →
  formatLayerData allData filteredIndex old opt L = (L1, Some out1) →
  inRange allData2 filteredIndex2 →
  ∃ L2 out2,
    formatLayerData allData2 filteredIndex2 (Some out1) {| sameData := true |}
      (bindColumns cols2 L1) = (L2, Some out2) ∧
    pos_ref (LayerData.getPosition out2) ≠ pos_ref (LayerData.getPosition out1) ∧
    metaCalls L2 = (allData2, LayerData.getPosition out2) :: metaCalls L1 ∧
    meta L2 = updateMeta (meta L1)
                (getPointsBounds allData2
                   (λ d, applyPos (LayerData.getPosition out2) {| Datum.data := d |})) ∧
    items (LayerData.data out2) = retained allData2 cols2 filteredIndex2 ∧
    (nextRef L1 ≤ arr_ref (LayerData.data out2))%nat.
Proof.
  intros HL Ha1 Hi1 Ha2 Hi2 Hrun Hin.
  destruct (rebinding_forces_cold_pass _ _ _ _ _ _ _ cols2 allData2 filteredIndex2
              {| sameData := true |} HL Hrun) as (L2 & out2 & ? & ? & _ & ?); [|done|].
  - apply key_changes_with_altitude_index. rewrite Ha1, Ha2. simpl.
    intros [= E]. lia.
  - by exists L2, out2.
Qed.

(** C10: a binding without an altitude entry and one whose altitude entry
    has [fieldIdx = -1] (the other indices being equal) give accessors that
    agree on every row, with altitude coordinate [0]; but their cache keys
    differ, one ends in [z] and the other in [-1], so the memoized
    [getPosition] gives them two different functions, and going from one of
    these bindings to the other between two passes, in either direction,
    makes the next pass cold even with [opt.sameData] set: bounds and rows
    are computed again. *)
Theorem C10_two_unbound_altitudes_two_accessors allData filteredIndex old opt
    (L L1 : Layer) (out1 : LayerData.t) (cAbsent cMinus : Columns) (alt : Column)
    allData2 filteredIndex2 :
  wf L →
  fieldIdx (lat cAbsent) = fieldIdx (lat cMinus) →
  fieldIdx (lng cAbsent) = fieldIdx (lng cMinus) →
  altitude cAbsent = None →
  altitude cMinus = Some alt → fieldIdx alt = -1 →
  formatLayerData allData filteredIndex old opt L = (L1, Some out1) →
  inRange allData2 filteredIndex2 →
  (∀ d, pointPosAccessor cAbsent d = pointPosAccessor cMinus d ∧
        pointPosAccessor cAbsent d !! 2%nat = Some (num 0)) ∧
  (∃ prefix, pointPosResolver cAbsent = prefix +:+ "z" ∧
             pointPosResolver cMinus = prefix +:+ "-1") ∧
  pointPosResolver cAbsent ≠ pointPosResolver cMinus ∧
  (∃ La fa Lm fm,
     getPositionMemo cAbsent L = (La, Some fa) ∧
     getPositionMemo cMinus La = (Lm, Some fm) ∧
     pos_ref fa ≠ pos_ref fm) ∧
  ∀ cols1 cols2,
    (cols1 = cAbsent ∧ cols2 = cMinus) ∨ (cols1 = cMinus ∧ cols2 = cAbsent) →
    columns (config L) = cols1 →
    ∃ L2 out2,
      formatLayerData allData2 filteredIndex2 (Some out1) {| sameData := true |}
        (bindColumns cols2 L1) = (L2, Some out2) ∧
      pos_ref (LayerData.getPosition out2) ≠ pos_ref (LayerData.getPosition out1) ∧
      (∀ d, applyPos (LayerData.getPosition out2) d =
            applyPos (LayerData.getPosition out1) d) ∧
      metaCalls L2 = (allData2, LayerData.getPosition out2) :: metaCalls L1 ∧
      meta L2 = updateMeta (meta L1)
                  (getPointsBounds allData2
                     (λ d, applyPos (LayerData.getPosition out2) {| Datum.data := d |})) ∧
      items (LayerData.data out2) = retained allData2 cols2 filteredIndex2 ∧
      (nextRef L1 ≤ arr_ref (LayerData.data out2))%nat.
Proof.
  intros HL Hlat Hlng Habs Hmin Hidx Hrun Hin.
  assert (∀ d, pointPosAccessor cAbsent d = pointPosAccessor cMinus d) as Hagree.
  { intros d. unfold pointPosAccessor. rewrite Hlat, Hlng, Habs, Hmin.
    case_decide; [lia|done]. }
  assert (pointPosResolver cAbsent ≠ pointPosResolver cMinus) as Hkey.
  { apply key_changes_with_altitude_index. by rewrite Habs, Hmin. }
  split; [|split; [|split; [done|split]]].
  - intros d. split; [done|]. unfold pointPosAccessor. by rewrite Habs.
  - exists (pretty (fieldIdx (lat cMinus)) +:+ "-" +:+
            pretty (fieldIdx (lng cMinus)) +:+ "-").
    unfold pointPosResolver. rewrite Hlat, Hlng, Habs, Hmin, Hidx.
    split; by rewrite !string_app_assoc.
  - destruct (getPositionMemo cAbsent L) as [La ra] eqn:Ha.
    destruct (getPositionMemo_run _ _ _ _ Ha) as (fa & -> & Hfa & _ & _ & Wa).
    destruct (getPositionMemo cMinus La) as [Lm rm] eqn:Hm.
    destruct (getPositionMemo_run _ _ _ _ Hm) as (fm & -> & Hfm & Gm & _ & Wm).
    exists La, fa, Lm, fm. split; [done|]. split; [done|].
    intros Href. apply Hkey.
    apply (wf_pos_inj _ (Wm (Wa HL)) _ _ _ _
             (lookup_weaken _ _ _ _ Hfa (grows_pos _ _ Gm)) Hfm Href).
  - intros cols1 cols2 Hcase Hcols.
    destruct (rebinding_forces_cold_pass _ _ _ _ _ _ _ cols2 allData2 filteredIndex2
                {| sameData := true |} HL Hrun)
      as (L2 & out2 & Hrun2 & Href & Hacc & Hrest); [|done|].
    { rewrite Hcols. by destruct Hcase as [[-> ->]|[-> ->]]. }
    exists L2, out2. split; [done|]. split; [done|]. split; [|done].
    intros d. rewrite Hacc.
    destruct (formatLayerData_cached _ _ _ _ _ _ _ Hrun) as (_ & Hc1 & _).
    destruct (formatLayerData_run allData filteredIndex old opt L) as [_ W].
    rewrite Hrun in W. simpl in W.
    unfold applyPos at 1.
    rewrite (pointPosAccessor_key (pos_env (LayerData.getPosition out1)) cols1)
      by (rewrite <-Hcols; apply (wf_pos_key _ (W HL) _ _ Hc1)).
    by destruct Hcase as [[-> ->]|[-> ->]].
Qed.

End Invalidation.

(** ** The characters of the labels *)

Lemma uniq_step_spec (l acc : list ascii) :
  NoDup acc →
  NoDup (foldl (λ result c, if decide (c ∈ result) then result else result ++ [c])
           acc l) ∧
  ∀ c, c ∈ foldl (λ result c, if decide (c ∈ result) then result else result ++ [c])
             acc l ↔ c ∈ acc ∨ c ∈ l.
Proof.
  revert acc. induction l as [|x l IH]; intros acc Hacc; simpl.
  - split; [done|]. intros c. rewrite elem_of_nil. tauto.
  - case_decide as Hx.
    + destruct (IH acc Hacc) as [Hnd Hin]. split; [done|].
      intros c. rewrite Hin, elem_of_cons. split; [tauto|].
      intros [?|[->|?]]; tauto.
    + destruct (IH (acc ++ [x])) as [Hnd Hin].
      { apply NoDup_app. split; [done|]. split; [|apply NoDup_singleton].
        intros y Hy ->%list_elem_of_singleton. done. }
      split; [done|]. intros c.
      rewrite Hin, elem_of_app, list_elem_of_singleton, elem_of_cons. tauto.
Qed.

(** [uniq] keeps every character of the string, once. *)
Lemma uniq_spec (s : string) :
  NoDup (uniq s) ∧ ∀ c, c ∈ uniq s ↔ c ∈ list_ascii_of_string s.
Proof.
  destruct (uniq_step_spec (list_ascii_of_string s) [] (NoDup_nil_2)) as [Hnd Hin].
  split; [done|]. intros c. unfold uniq. rewrite Hin, elem_of_nil. tauto.
Qed.

Lemma list_ascii_of_string_app (s1 s2 : string) :
  list_ascii_of_string (s1 +:+ s2) =
  list_ascii_of_string s1 ++ list_ascii_of_string s2.
Proof.
  induction s1 as [|c s1 IH]; [done|].
  change (c :: list_ascii_of_string (s1 +:+ s2) =
          c :: (list_ascii_of_string s1 ++ list_ascii_of_string s2)).
  by rewrite IH.
Qed.

Lemma join_chars (l : list string) (c : ascii) :
  c ∈ list_ascii_of_string (join l) ↔ ∃ s, s ∈ l ∧ c ∈ list_ascii_of_string s.
Proof.
  induction l as [|s l IH].
  - simpl. rewrite elem_of_nil. split; [done|]. by intros (s & ?%elem_of_nil & _).
  - change (join (s :: l)) with (s +:+ join l).
    rewrite list_ascii_of_string_app, elem_of_app, IH. split.
    + intros [Hc|(s' & Hs' & Hc)].
      * exists s. split; [apply list_elem_of_here|done].
      * exists s'. split; [by apply list_elem_of_further|done].
    + intros (s' & [->|Hs']%elem_of_cons & Hc); [by left|].
      right. by exists s'.
Qed.

Lemma map_throw_elem {A B} (f : A → option B) (l : list A) (l' : list B) :
  map_throw f l = Some l' →
  (∀ x, x ∈ l → is_Some (f x)) ∧
  ∀ y, y ∈ l' ↔ ∃ x, x ∈ l ∧ f x = Some y.
Proof.
  revert l'. induction l as [|x l IH]; intros l'; simpl.
  - intros [= <-]. split; [by intros x ?%elem_of_nil|].
    intros y. rewrite elem_of_nil. split; [done|]. by intros (x & ?%elem_of_nil & _).
  - destruct (f x) as [y0|] eqn:Hx; [|done]. simpl.
    destruct (map_throw f l) as [ys|]; [|done]. simpl. intros [= <-].
    destruct (IH ys eq_refl) as [Htot Hin]. split.
    + intros x' [->|Hx']%elem_of_cons; [by rewrite Hx|by apply Htot].
    + intros y. rewrite elem_of_cons, Hin. split.
      * intros [->|(x' & Hx' & Hy)].
        -- exists x. split; [apply list_elem_of_here|done].
        -- exists x'. split; [by apply list_elem_of_further|done].
      * intros (x' & [->|Hx']%elem_of_cons & Hy); [left; congruence|].
        right. by exists x'.
Qed.

Lemma map_throw_returns {A B} (f : A → option B) (l : list A) :
  (∀ x, x ∈ l → is_Some (f x)) → is_Some (map_throw f l).
Proof.
  induction l as [|x l IH]; intros Htot; [done|]. simpl.
  destruct (Htot x (list_elem_of_here _ _)) as [y ->]. simpl.
  destruct IH as [ys ->]; [|done].
  intros x' Hx'. by apply Htot, list_elem_of_further.
Qed.

Section Glyphs.
Context `{BL : BaseLayer}.

(** The characters of [uniq(textLabels.join(''))] for the labels of some
    rows. *)
Lemma label_characters getText (rows : list Datum.t) (textLabels : list string) :
  map_throw (applyText getText) rows = Some textLabels →
  NoDup (uniq (join textLabels)) ∧
  ∀ c, c ∈ uniq (join textLabels) ↔ labelCharacters getText rows c.
Proof.
  intros Hmap. destruct (uniq_spec (join textLabels)) as [Hnd Hin].
  split; [done|]. intros c. rewrite Hin, join_chars.
  destruct (map_throw_elem _ _ _ Hmap) as [_ Hlab]. unfold labelCharacters. split.
  - intros (s & (d & Hd & Hs)%Hlab & Hc). by exists d, s.
  - intros (d & s & Hd & Hs & Hc). exists s. split; [|done].
    apply Hlab. by exists d.
Qed.

Lemma charactersReused_false_iff old opt getText :
  charactersReused old opt getText = false ↔
  old = None ∨ sameData opt = false ∨
  ∃ o, old = Some o ∧ text_ref (LayerData.getText o) ≠ text_ref getText.
Proof.
  unfold charactersReused, sameText. destruct old as [o|].
  - rewrite andb_false_iff, bool_decide_eq_false. split.
    + intros [?|?]; [by right; left|]. right. right. by exists o.
    + intros [|[?|(o' & [= <-] & ?)]]; [done|by left|by right].
  - split; [by left|done].
Qed.

(** C6: whenever a pass recomputes the character set (there is no previous
    result, or [opt.sameData] is not set, or the previous label accessor is
    another function), [labelCharacterSet] holds, without repetition,
    exactly the characters that occur in the labels the label accessor
    gives for the rows the pass returns; the label of a row is the text of
    its cell in the label field's column. Computing the set from any
    permutation of these rows gives the same set. With no label field bound
    the set is empty. *)
Theorem C6_label_character_set allData filteredIndex old opt
    (L L' : Layer) (out : LayerData.t) :
  wf L →
  formatLayerData allData filteredIndex old opt L = (L', Some out) →
  (old = None ∨ sameData opt = false ∨
   ∃ o, old = Some o ∧
        text_ref (LayerData.getText o) ≠ text_ref (LayerData.getText out)) →
  let tl := textLabel (config L) in
  let getText := LayerData.getText out in
  let rows := items (LayerData.data out) in
  let characters := items (LayerData.labelCharacterSet out) in
  NoDup characters ∧
  (∀ c, c ∈ characters ↔
        ∃ d s, d ∈ rows ∧ applyText getText d = Some s ∧
               c ∈ list_ascii_of_string s) ∧
  (∀ f d, field tl = Some f →
     applyText getText d =
       Some (String_of (getIdx (Datum.data d) (tableFieldIndex f - 1)))) ∧
  (∀ rows' ref (L0 : Layer), rows' ≡ₚ rows →
     ∃ L0' characters',
       collectCharacters tl {| arr_ref := ref; items := rows' |} None opt getText L0 =
         (L0', Some characters') ∧
       items characters' ≡ₚ characters) ∧
  (field tl = None → characters = []).
Proof.
  intros HL Hrun Hre%charactersReused_false_iff. cbv zeta.
  set (tl := textLabel (config L)).
  destruct (formatLayerData_inv _ _ _ _ _ _ _ Hrun)
    as (L1 & L3 & L4 & Hpos & Hrows & Htext & Hchars & _).
  fold tl in Htext, Hchars.
  rewrite (collectCharacters_recompute _ _ _ _ _ _ Hre) in Hchars.
  destruct (formatLayerData_cached _ _ _ _ _ _ _ Hrun) as (_ & _ & Hg).
  destruct (formatLayerData_run allData filteredIndex old opt L) as [_ W].
  rewrite Hrun in W. simpl in W. specialize (W HL). fold tl in Hg.
  assert (∀ f d, field tl = Some f →
     applyText (LayerData.getText out) d =
       Some (String_of (getIdx (Datum.data d) (tableFieldIndex f - 1)))) as Hlabel.
  { intros f d Hf. exact (cached_label_current L' tl _ f d W Hg Hf). }
  destruct (field tl) as [f|] eqn:Hf.
  - destruct (map_throw (applyText (LayerData.getText out))
                (items (LayerData.data out))) as [textLabels|] eqn:Hmap; [|done].
    injection Hchars as _ Hchars.
    destruct (label_characters _ _ _ Hmap) as [Hnd Hin].
    rewrite <-Hchars. cbn [items].
    split; [done|]. split; [done|]. split; [done|]. split; [|done].
    intros rows' ref L0 Hperm.
    rewrite (collectCharacters_recompute _ _ None opt _ L0 eq_refl), Hf.
    destruct (map_throw_returns (applyText (LayerData.getText out)) rows')
      as [labels' Hmap'].
    { intros d _. rewrite (Hlabel f d eq_refl). by eexists. }
    cbn [items]. rewrite Hmap'. eexists _, _. split; [done|]. cbn [items].
    destruct (label_characters _ _ _ Hmap') as [Hnd' Hin'].
    apply NoDup_Permutation; [done..|]. intros c. rewrite Hin, Hin'.
    unfold labelCharacters. by setoid_rewrite Hperm.
  - injection Hchars as _ Hchars. rewrite <-Hchars. cbn [items].
    split; [apply NoDup_nil_2|]. split; [|split; [done|split; [|done]]].
    + intros c. rewrite elem_of_nil. split; [done|].
      intros (d & s & _ & Hs & _).
      pose proof (wf_text_key _ W _ _ Hg) as Hkey.
      unfold applyText, pointLabelAccessor in Hs.
      unfold pointLabelResolver in Hkey. rewrite Hf in Hkey.
      by destruct (field (text_env (LayerData.getText out))).
    + intros rows' ref L0 _.
      rewrite (collectCharacters_recompute _ _ None opt _ L0 eq_refl), Hf.
      by eexists _, _.
Qed.

End Glyphs.

(** ** Drawing *)

Section Rendering.
Context `{BL : BaseLayer}.

Local Ltac finish :=
  repeat match goal with
         | |- _ ∧ _ => split
         | |- ∃ _, _ => eexists
         | |- _ = _ => reflexivity
         end.

(** X18: with an altitude entry in the columns, and a hovered object whenever
    the layer counts as hovered, [renderLayer] returns the primary layer,
    then one layer for the hovered object if the layer is hovered, then
    one text layer if a label field is bound. *)
Lemma renderLayer_sublayers (args : RenderArgs) (L : Layer) (alt : Column) :
  altitude (columns (config L)) = Some alt →
  (isLayerHovered (id L) (ra_objectHovered args) = true →
   is_Some (ra_objectHovered args)) →
  ∃ primary hover text,
    renderLayer args L =
      (L, Some (ScatterplotBrushingLayer primary :: hover ++ text)) ∧
    sp_id primary = id L ∧
    sp_data primary = items (LayerData.data (ra_data args)) ∧
    (if isLayerHovered (id L) (ra_objectHovered args)
     then ∃ p info, hover = [ScatterplotBrushingLayer p] ∧
                    ra_objectHovered args = Some info ∧
                    sp_data p = [object info]
     else hover = []) ∧
    (if field (textLabel (config L)) is Some _
     then ∃ p, text = [TextLayer p] ∧
               tp_characterSet p = LayerData.labelCharacterSet (ra_data args)
     else text = []) ∧
    length (ScatterplotBrushingLayer primary :: hover ++ text) =
      (1 + (if isLayerHovered (id L) (ra_objectHovered args) then 1 else 0) +
       (if field (textLabel (config L)) is Some _ then 1 else 0))%nat.
Proof.
  intros Halt Hhover. unfold renderLayer, bind, this, lift, ret.
  rewrite Halt.
  destruct (isLayerHovered (id L) (ra_objectHovered args)) eqn:Hh.
  - destruct (Hhover eq_refl) as [info Hinfo]. rewrite Hinfo.
    destruct (field (textLabel (config L))) as [f|] eqn:Hf;
      eexists _, _, _; (split; [reflexivity|]); simpl; rewrite ?Hf; finish.
  - destruct (field (textLabel (config L))) as [f|] eqn:Hf;
      eexists _, _, _; (split; [reflexivity|]); simpl; rewrite ?Hf; finish.
Qed.

(** C9: with columns that have no altitude entry, which [pointPosAccessor]
    and [pointPosResolver] both provide for, [renderLayer] throws while it
    builds the primary layer ([this.config.columns.altitude.fieldIdx]) and
    returns no layer at all, whatever is hovered and whether or not a label
    field is bound. *)
Theorem C9_renderLayer_throws_without_altitude_entry (args : RenderArgs)
    (L : Layer) (latColumn lngColumn : Column) :
  renderLayer args
    (bindColumns {| lat := latColumn; lng := lngColumn; altitude := None |} L) =
  (bindColumns {| lat := latColumn; lng := lngColumn; altitude := None |} L, None).
Proof. done. Qed.

End Rendering.

(** * Further properties of the layer *)

(** ** The cache key and the memoized accessors *)

(** X1: two column bindings get the same cache key from [pointPosResolver]
    exactly when they have the same [lat] index, the same [lng] index, and
    either no altitude entry both or altitude entries with the same index:
    the dashes that separate the indices are never confused with minus
    signs. *)
Theorem pointPosResolver_same_key_iff (c1 c2 : Columns) :
  pointPosResolver c1 = pointPosResolver c2 ↔
  fieldIdx (lat c1) = fieldIdx (lat c2) ∧
  fieldIdx (lng c1) = fieldIdx (lng c2) ∧
  fieldIdx <$> altitude c1 = fieldIdx <$> altitude c2.
Proof.
  split; [apply pointPosResolver_inj|].
  intros (Hlat & Hlng & Halt). by apply pointPosResolver_ext.
Qed.

Section Soundness.
Context `{BL : BaseLayer}.

Lemma set_config_wf cfg (L : Layer) : wf L → wf (set_config cfg L).
Proof. by intros []. Qed.

Lemma updateLayerMeta_run allData (L : Layer) :
  let L' := (updateLayerMeta allData L).1 in
  (updateLayerMeta allData L).2 = Some tt ∧ grows L L' ∧ (wf L → wf L').
Proof.
  unfold updateLayerMeta.
  destruct (getPositionAccessor L) as [L1 r] eqn:Hpos.
  destruct (getPositionAccessor_run _ _ _ Hpos) as (f & -> & _ & G & _ & W).
  rewrite (bind_run _ _ _ _ _ Hpos). simpl. split; [done|].
  split; [|by auto using set_bounds_wf].
  etrans; [exact G|apply set_bounds_grows].
Qed.

Lemma renderLayer_state args (L : Layer) : (renderLayer args L).1 = L.
Proof.
  unfold renderLayer, bind, this, lift, ret.
  destruct (altitude (columns (config L))); [|done].
  destruct (isLayerHovered (id L) (ra_objectHovered args)); [|by destruct (field _)].
  destruct (ra_objectHovered args); [|done]. by destruct (field _).
Qed.

(** The caches of a layer a program can get to are sound. *)
Lemma reachable_wf (L : Layer) : reachable L → wf L.
Proof.
  induction 1 as [i cfg m n|L cfg _ IH|L cols _ IH|L tl _ IH|L allData _ IH
                 |L allData filteredIndex old opt _ IH|L args _ IH].
  - apply newLayer_wf.
  - by apply set_config_wf.
  - destruct (getPositionMemo cols L) as [L' r] eqn:Hrun.
    by destruct (getPositionMemo_run _ _ _ _ Hrun) as (f & _ & _ & _ & _ & W); auto.
  - destruct (getTextMemo tl L) as [L' r] eqn:Hrun.
    by destruct (getTextMemo_run _ _ _ _ Hrun) as (g & _ & _ & _ & _ & W); auto.
  - by apply updateLayerMeta_run.
  - by apply formatLayerData_run.
  - by rewrite renderLayer_state.
Qed.

(** X3: on such a layer the memoized [getPosition] returns, for any column
    binding, an accessor that reads on every row exactly the cells the
    binding names, also when the accessor was built earlier from another
    binding object; likewise the memoized [getText] returns a label
    accessor that gives the label the given label settings give. *)
Theorem memoized_accessors_follow_binding (L : Layer) (cols : Columns)
    (tl : TextLabel) :
  reachable L →
  (∃ f L', getPositionMemo cols L = (L', Some f) ∧
           ∀ d, applyPos f d = pointPosAccessor cols d) ∧
  (∃ g L', getTextMemo tl L = (L', Some g) ∧
           ∀ d, applyText g d = pointLabelAccessor tl d).
Proof.
  intros HL%reachable_wf. split.
  - destruct (getPositionMemo cols L) as [L' r] eqn:Hrun.
    destruct (getPositionMemo_run _ _ _ _ Hrun) as (f & -> & Hf & _ & _ & W).
    exists f, L'. split; [done|]. intros d.
    apply pointPosAccessor_key, (wf_pos_key _ (W HL) _ _ Hf).
  - destruct (getTextMemo tl L) as [L' r] eqn:Hrun.
    destruct (getTextMemo_run _ _ _ _ Hrun) as (g & -> & Hg & _ & _ & W).
    exists g, L'. split; [done|]. intros d.
    apply pointLabelAccessor_key, (wf_text_key _ (W HL) _ _ Hg).
Qed.

(** X4: a pass of [formatLayerData], also one that throws, leaves the
    layer's [id] and [config] as they were, keeps every entry of both
    accessor caches, and does not take back an identity it gave out. *)
Theorem formatLayerData_frame allData filteredIndex old opt (L : Layer) :
  let L' := (formatLayerData allData filteredIndex old opt L).1 in
  id L' = id L ∧ config L' = config L ∧
  getPosition_cache L ⊆ getPosition_cache L' ∧
  getText_cache L ⊆ getText_cache L' ∧
  (nextRef L ≤ nextRef L')%nat.
Proof.
  intros L'. destruct (formatLayerData_run allData filteredIndex old opt L) as [[] _].
  by repeat split.
Qed.

End Soundness.

(** ** When a pass throws, and what a later pass takes over *)

Section Passes.
Context `{BL : BaseLayer}.





(** X6: once a pass has returned, a later pass on the same layer with the
    configuration unchanged and that result as [oldLayerData] never
    computes the bounds again, whatever table, filtered indices and
    [opt] it is given: the layer's [meta] stays as the first pass left it,
    also for another table. *)
Theorem later_pass_keeps_bounds allData filteredIndex old opt (L L1 : Layer)
    (out1 : LayerData.t) allData2 filteredIndex2 opt2 :
  formatLayerData allData filteredIndex old opt L = (L1, Some out1) →
  let L2 := (formatLayerData allData2 filteredIndex2 (Some out1) opt2 L1).1 in
  meta L2 = meta L1 ∧ metaCalls L2 = metaCalls L1.
Proof.
  intros Hrun L2.
  destruct (formatLayerData_cached _ _ _ _ _ _ _ Hrun) as (Hcfg & Hpos & _).
  rewrite <-Hcfg in Hpos. apply getPositionAccessor_hit in Hpos.
  destruct (formatLayerData_state allData2 filteredIndex2 (Some out1) opt2 _ _ _ Hpos)
    as (_ & Q & _). fold L2 in Q.
  unfold boundsStale in Q. by rewrite samePos_refl in Q.
Qed.

(** X7: the label characters are reused independently of the rows. After a
    pass has returned, a later pass with [opt.sameData] set and that result
    as [oldLayerData] returns the same [labelCharacterSet] array also when
    the columns were rebound in between, so that its rows were filtered
    again: the label settings alone decide. *)
Theorem characters_survive_rebinding allData filteredIndex old opt (L L1 L2 : Layer)
    (out1 out2 : LayerData.t) (cols2 : Columns) allData2 filteredIndex2 :
  formatLayerData allData filteredIndex old opt L = (L1, Some out1) →
  formatLayerData allData2 filteredIndex2 (Some out1) {| sameData := true |}
    (bindColumns cols2 L1) = (L2, Some out2) →
  LayerData.getText out2 = LayerData.getText out1 ∧
  LayerData.labelCharacterSet out2 = LayerData.labelCharacterSet out1.
Proof.
  intros Hrun1 Hrun2.
  destruct (formatLayerData_cached _ _ _ _ _ _ _ Hrun1) as (Hcfg & _ & Htext1).
  destruct (formatLayerData_inv _ _ _ _ _ _ _ Hrun2)
    as (L1' & L3 & L4 & Hpos & Hrows & Htext & Hchars & _).
  change (textLabel (config (bindColumns cols2 L1))) with (textLabel (config L1))
    in Htext, Hchars.
  rewrite Hcfg in Htext, Hchars.
  destruct (getPositionAccessor_run _ _ _ Hpos) as (_ & _ & _ & G1 & _).
  destruct (filterRows_run _ _ _ _ _ _ _ _ Hrows) as (G3 & _).
  assert (getText_cache L3 !! pointLabelResolver (textLabel (config L)) =
          Some (LayerData.getText out1)) as Hhit.
  { eapply lookup_weaken; [exact Htext1|].
    etrans; [|apply (grows_text _ _ G3)].
    destruct (boundsStale _ _); apply (grows_text _ _ G1). }
  rewrite (getTextMemo_hit _ _ _ Hhit) in Htext. injection Htext as <- Heq.
  split; [done|]. rewrite <-Heq in Hchars.
  rewrite collectCharacters_reuse in Hchars by (simpl; apply sameText_refl).
  by injection Hchars as _ <-.
Qed.

Lemma retained_app allData cols (l1 l2 : list nat) :
  retained allData cols (l1 ++ l2) =
  retained allData cols l1 ++ retained allData cols l2.
Proof.
  unfold retained, keptIndices. by rewrite List.filter_app, omap_app.
Qed.

(** X8: filtering is done index by index. For in-range filtered indices
    and passes from one layer that filter the rows again, the rows for the
    concatenation of two index sequences are the rows for the first
    followed by the rows for the second. *)
Theorem rows_of_concatenated_indices allData (index1 index2 : list nat) old opt
    (L L1 : Layer) (getPosition : PosAccessor) :
  wf L → inRange allData index1 → inRange allData index2 →
  getPositionAccessor L = (L1, Some getPosition) →
  (old = None ∨ sameData opt = false ∨
   ∃ o, old = Some o ∧ pos_ref (LayerData.getPosition o) ≠ pos_ref getPosition) →
  ∃ La outa Lb outb Lc outc,
    formatLayerData allData index1 old opt L = (La, Some outa) ∧
    formatLayerData allData index2 old opt L = (Lb, Some outb) ∧
    formatLayerData allData (index1 ++ index2) old opt L = (Lc, Some outc) ∧
    items (LayerData.data outc) =
      items (LayerData.data outa) ++ items (LayerData.data outb).
Proof.
  intros HL Hin1 Hin2 Hpos Hre%rowsReused_false_iff.
  destruct (formatLayerData_rebuild _ _ _ _ _ _ _ HL Hin1 Hpos Hre)
    as (La & outa & Hruna & _ & Hda).
  destruct (formatLayerData_rebuild _ _ _ _ _ _ _ HL Hin2 Hpos Hre)
    as (Lb & outb & Hrunb & _ & Hdb).
  destruct (formatLayerData_rebuild allData (index1 ++ index2) _ _ _ _ _ HL
              ltac:(by apply Forall_app) Hpos Hre) as (Lc & outc & Hrunc & _ & Hdc).
  exists La, outa, Lb, outb, Lc, outc. repeat split; [done..|].
  rewrite Hda, Hdb, Hdc. apply retained_app.
Qed.

End Passes.

(** ** Rows with missing cells *)

Section MissingCells.
Context `{BL : BaseLayer}.

Lemma getIdx_missing (row : Row) (i : Z) :
  i < 0 ∨ Z.of_nat (length row) ≤ i → getIdx row i = VUndefined.
Proof.
  unfold getIdx. intros Hi. case_decide; [|done].
  destruct Hi as [Hi|Hi]; [lia|].
  assert (row !! Z.to_nat i = None) as ->; [|done].
  apply lookup_ge_None_2. lia.
Qed.

(** The finiteness test of a row, cell by cell. *)
Lemma positionFinite_cells (cols : Columns) (row : Row) :
  positionFinite cols row =
  finiteCell row (fieldIdx (lng cols)) && finiteCell row (fieldIdx (lat cols)) &&
  match altitude cols with
  | Some alt =>
      if decide (fieldIdx alt > -1) then finiteCell row (fieldIdx alt) else true
  | None => true
  end.
Proof.
  unfold positionFinite, pointPosAccessor, finiteCell. simpl.
  rewrite andb_true_r, andb_assoc. f_equal.
  destruct (altitude cols) as [alt|]; [|done]. by case_decide.
Qed.

Lemma retained_none allData cols filteredIndex :
  (∀ row, positionFinite cols row = false) →
  retained allData cols filteredIndex = [].
Proof.
  intros Hnone. unfold retained, keptIndices.
  induction filteredIndex as [|index filteredIndex IH]; [done|]. simpl.
  assert (finiteAt allData cols index = false) as ->; [|done].
  unfold finiteAt. destruct (allData !! index); [apply Hnone|done].
Qed.

(** X9: when the [lat] or the [lng] column is not bound to a column of the
    table (its [fieldIdx] is negative), a pass that filters the rows
    returns no row at all: the missing cell reads as [undefined], which is
    not a finite number. *)
Theorem unbound_lat_or_lng_keeps_no_row allData filteredIndex old opt
    (L L1 : Layer) (getPosition : PosAccessor) :
  wf L → inRange allData filteredIndex →
  getPositionAccessor L = (L1, Some getPosition) →
  (old = None ∨ sameData opt = false ∨
   ∃ o, old = Some o ∧ pos_ref (LayerData.getPosition o) ≠ pos_ref getPosition) →
  fieldIdx (lat (columns (config L))) < 0 ∨ fieldIdx (lng (columns (config L))) < 0 →
  ∃ L' out,
    formatLayerData allData filteredIndex old opt L = (L', Some out) ∧
    items (LayerData.data out) = [].
Proof.
  intros HL Hin Hpos Hre%rowsReused_false_iff Hneg.
  destruct (formatLayerData_rebuild _ _ _ _ _ _ _ HL Hin Hpos Hre)
    as (L' & out & Hrun & _ & Hdata).
  exists L', out. split; [done|]. rewrite Hdata. cbn [items].
  apply retained_none. intros row. rewrite positionFinite_cells.
  unfold finiteCell. destruct Hneg as [Hneg|Hneg].
  - rewrite (getIdx_missing row (fieldIdx (lat _))) by by left.
    simpl. by rewrite andb_false_r.
  - by rewrite (getIdx_missing row (fieldIdx (lng _))) by by left.
Qed.

(** X10: with no altitude column in use (the altitude entry is absent, or
    its [fieldIdx] is [-1] or any other negative number), a pass that
    filters the rows keeps exactly the rows at the filtered indices whose
    [lng] and [lat] cells are finite numbers, in order; no other cell of a
    row matters. *)
Theorem rows_without_altitude allData filteredIndex old opt
    (L L1 : Layer) (getPosition : PosAccessor) :
  wf L → inRange allData filteredIndex →
  getPositionAccessor L = (L1, Some getPosition) →
  (old = None ∨ sameData opt = false ∨
   ∃ o, old = Some o ∧ pos_ref (LayerData.getPosition o) ≠ pos_ref getPosition) →
  (altitude (columns (config L)) = None ∨
   ∃ alt, altitude (columns (config L)) = Some alt ∧ fieldIdx alt ≤ -1) →
  let cols := columns (config L) in
  ∃ L' out,
    formatLayerData allData filteredIndex old opt L = (L', Some out) ∧
    Some <$> items (LayerData.data out) =
      datumAt allData <$>
        List.filter
          (λ index,
             from_option
               (λ row, finiteCell row (fieldIdx (lng cols)) &&
                       finiteCell row (fieldIdx (lat cols)))
               false (allData !! index))
          filteredIndex.
Proof.
  intros HL Hin Hpos Hre%rowsReused_false_iff Halt cols. subst cols.
  destruct (formatLayerData_rebuild _ _ _ _ _ _ _ HL Hin Hpos Hre)
    as (L' & out & Hrun & _ & Hdata).
  exists L', out. split; [done|]. rewrite Hdata. cbn [items].
  rewrite retained_rows. f_equal. apply List.filter_ext. intros index.
  unfold finiteAt. destruct (allData !! index) as [row|]; [|done]. simpl.
  rewrite positionFinite_cells.
  destruct Halt as [->|(alt & -> & Hidx)]; [by rewrite andb_true_r|].
  case_decide; [lia|by rewrite andb_true_r].
Qed.

End MissingCells.

(** ** Labels *)

Lemma uniq_step_absorb (acc l : list ascii) :
  (∀ c, c ∈ l → c ∈ acc) →
  foldl (λ result c, if decide (c ∈ result) then result else result ++ [c]) acc l =
  acc.
Proof.
  induction l as [|x l IH]; intros Hsub; [done|]. simpl.
  rewrite decide_True by apply Hsub, list_elem_of_here.
  apply IH. intros c Hc. by apply Hsub, list_elem_of_further.
Qed.

(** Characters that occurred before add nothing. *)
Lemma uniq_app_absorb (s t : string) :
  (∀ c, c ∈ list_ascii_of_string t → c ∈ list_ascii_of_string s) →
  uniq (s +:+ t) = uniq s.
Proof.
  intros Hsub. unfold uniq. rewrite list_ascii_of_string_app, foldl_app.
  apply uniq_step_absorb. intros c Hc. apply uniq_spec. by apply Hsub.
Qed.

Lemma uniq_join_replicate (n : nat) (s : string) :
  uniq (join (replicate (S n) s)) = uniq s.
Proof.
  change (join (replicate (S n) s)) with (s +:+ join (replicate n s)).
  apply uniq_app_absorb. intros c (s' & Hs' & Hc)%join_chars.
  by apply elem_of_replicate in Hs' as [-> _].
Qed.

Lemma map_throw_const {A B} (f : A → option B) (y : B) (l : list A) :
  (∀ x, x ∈ l → f x = Some y) → map_throw f l = Some (replicate (length l) y).
Proof.
  induction l as [|x l IH]; intros Hf; [done|]. simpl.
  rewrite (Hf x) by apply list_elem_of_here. simpl.
  rewrite IH; [done|]. intros x' Hx'. by apply Hf, list_elem_of_further.
Qed.

Section Labels.
Context `{BL : BaseLayer}.

(** X11: when the label field points at a column the returned rows do not
    have (its [tableFieldIndex - 1] is negative or past the end of every
    returned row), the label of every row is the text ["undefined"], and a
    pass that computes the character set and returns at least one row gives
    the characters [u, n, d, e, f, i], in this order. *)
Theorem label_of_missing_column allData filteredIndex old opt (L L' : Layer)
    (out : LayerData.t) (f : LabelField) :
  wf L →
  formatLayerData allData filteredIndex old opt L = (L', Some out) →
  (old = None ∨ sameData opt = false ∨
   ∃ o, old = Some o ∧
        text_ref (LayerData.getText o) ≠ text_ref (LayerData.getText out)) →
  field (textLabel (config L)) = Some f →
  (∀ d, d ∈ items (LayerData.data out) →
        tableFieldIndex f - 1 < 0 ∨
        Z.of_nat (length (Datum.data d)) ≤ tableFieldIndex f - 1) →
  items (LayerData.data out) ≠ [] →
  (∀ d, d ∈ items (LayerData.data out) →
        applyText (LayerData.getText out) d = Some "undefined") ∧
  items (LayerData.labelCharacterSet out) = undefinedCharacters.
Proof.
  intros HL Hrun Hre%charactersReused_false_iff Hf Hmiss Hrows.
  destruct (formatLayerData_inv _ _ _ _ _ _ _ Hrun)
    as (L1 & L3 & L4 & _ & _ & _ & Hchars & _).
  rewrite (collectCharacters_recompute _ _ _ _ _ _ Hre), Hf in Hchars.
  destruct (formatLayerData_cached _ _ _ _ _ _ _ Hrun) as (_ & _ & Hg).
  destruct (formatLayerData_run allData filteredIndex old opt L) as [_ W].
  rewrite Hrun in W. simpl in W. specialize (W HL).
  assert (∀ d, d ∈ items (LayerData.data out) →
            applyText (LayerData.getText out) d = Some "undefined") as Hlabel.
  { intros d Hd.
    rewrite (cached_label_current L' _ _ f d W Hg Hf).
    by rewrite (getIdx_missing _ _ (Hmiss d Hd)). }
  split; [done|].
  rewrite (map_throw_const _ _ _ Hlabel) in Hchars.
  injection Hchars as _ <-. cbn [items].
  destruct (items (LayerData.data out)) as [|d rows]; [done|].
  change (length (d :: rows)) with (S (length rows)).
  rewrite uniq_join_replicate. by vm_compute.
Qed.

Lemma restyleLabel_wf tl (L : Layer) : wf L → wf (restyleLabel tl L).
Proof. by intros []. Qed.

(** X12: the label accessor is cached by the label field's
    [tableFieldIndex] alone. After a pass has returned, replacing the label
    settings by others with the same field index (another color, size,
    offset or anchor, or another field object with that index; or none
    bound before and after) leaves the next pass warm when [opt.sameData] is
    set: it returns the rows array, the character set and both accessors of
    the previous result and changes nothing in the layer. *)
Theorem restyled_label_keeps_pass_warm allData filteredIndex old opt
    (L L1 : Layer) (out1 : LayerData.t) (tl2 : TextLabel)
    allData2 filteredIndex2 :
  formatLayerData allData filteredIndex old opt L = (L1, Some out1) →
  tableFieldIndex <$> field tl2 = tableFieldIndex <$> field (textLabel (config L)) →
  ∃ out2,
    formatLayerData allData2 filteredIndex2 (Some out1) {| sameData := true |}
      (restyleLabel tl2 L1) = (restyleLabel tl2 L1, Some out2) ∧
    LayerData.data out2 = LayerData.data out1 ∧
    LayerData.labelCharacterSet out2 = LayerData.labelCharacterSet out1 ∧
    LayerData.getPosition out2 = LayerData.getPosition out1 ∧
    LayerData.getText out2 = LayerData.getText out1.
Proof.
  intros Hrun Hkey.
  destruct (formatLayerData_cached _ _ _ _ _ _ _ Hrun) as (Hcfg & Hpos & Htext).
  set (L1' := restyleLabel tl2 L1).
  assert (getPosition_cache L1' !! pointPosResolver (columns (config L1')) =
          Some (LayerData.getPosition out1)) as Hpos'.
  { unfold L1'. simpl. by rewrite Hcfg. }
  assert (getText_cache L1' !! pointLabelResolver (textLabel (config L1')) =
          Some (LayerData.getText out1)) as Htext'.
  { unfold L1'. simpl. unfold pointLabelResolver in *. by rewrite Hkey. }
  rewrite (formatLayerData_eq _ _ _ _ _ _ _ (getPositionAccessor_hit _ _ Hpos')).
  assert (boundsStale (Some out1) (LayerData.getPosition out1) = false) as ->.
  { unfold boundsStale. by rewrite samePos_refl. }
  erewrite bind_run; [|apply filterRows_reuse; simpl; apply samePos_refl].
  erewrite bind_run; [|by apply getTextMemo_hit].
  erewrite bind_run; [|apply collectCharacters_reuse; simpl; apply sameText_refl].
  eexists. split; [done|]. by repeat split.
Qed.

End Labels.

(** ** What a pass adds to the layer *)

Section CacheGrowth.
Context `{BL : BaseLayer}.

Local Set Warnings "-clear-no-such-hyp".











End CacheGrowth.

(** ** Default layers *)

Lemma string_length_0 (s : string) : String.length s = 0%nat ↔ s = EmptyString.
Proof. by destruct s. Qed.

Section Defaults.
Context `{BL : BaseLayer}.
Variable has : string → bool.
Variable get : string → string.

Lemma pushDefaultProp_eq (props : list Props.t) (pair : FieldPair) :
  pushDefaultProp has get props pair =
  props ++ [defaultPropAt has get (length props) pair].
Proof.
  unfold pushDefaultProp, defaultPropAt. do 3 f_equal.
  destruct (decide (String.length (defaultName pair) = 0%nat)) as [E|E].
  - apply string_length_0 in E. by rewrite decide_True.
  - rewrite string_length_0 in E. by rewrite decide_False.
Qed.

(** The fold that pushes, as a map over the positions. *)
Lemma foldl_pushDefaultProp (props : list Props.t) (fieldPairs : list FieldPair) :
  foldl (pushDefaultProp has get) props fieldPairs =
  props ++ imap (λ i, defaultPropAt has get (length props + i)) fieldPairs.
Proof.
  revert props. induction fieldPairs as [|pair fieldPairs IH]; intros props.
  - by rewrite app_nil_r.
  - simpl. rewrite IH, pushDefaultProp_eq, <-app_assoc. simpl.
    rewrite Nat.add_0_r. do 2 f_equal. apply imap_ext. intros i p _. simpl.
    rewrite length_app. simpl. f_equal. lia.
Qed.

Lemma findDefaultLayerProps_eq (fieldPairs : list FieldPair) :
  findDefaultLayerProps has get fieldPairs = imap (defaultPropAt has get) fieldPairs.
Proof. unfold findDefaultLayerProps. by rewrite foldl_pushDefaultProp. Qed.

(** X14: [findDefaultLayerProps] makes one props object per field pair, in
    the order of the pairs. The one for a pair has the pair's name as
    label, or ["Point"] when the name is empty, so a label is never empty;
    [isVisible] is [true] on the first and is not set on the others; its
    columns are the pair's [lat] and [lng] fields and an altitude entry
    that is not bound ([fieldIdx = -1]); it has a color exactly when
    [DEFAULT_LAYER_COLOR] has an entry for the name of the [lat] field. *)
Theorem findDefaultLayerProps_per_pair (fieldPairs : list FieldPair) :
  let props := findDefaultLayerProps has get fieldPairs in
  length props = length fieldPairs ∧
  ∀ i pair, fieldPairs !! i = Some pair →
    ∃ p, props !! i = Some p ∧
      Props.label p =
        (if decide (defaultName pair = EmptyString) then "Point"
         else defaultName pair) ∧
      Props.label p ≠ EmptyString ∧
      Props.isVisible p = (if decide (i = 0%nat) then Some true else None) ∧
      lat (Props.columns p) = pair_lat pair ∧
      lng (Props.columns p) = pair_lng pair ∧
      altitude (Props.columns p) =
        Some {| col_value := None; fieldIdx := -1; optional := true |} ∧
      (is_Some (Props.color p) ↔
       has (propertyKey (col_value (pair_lat pair))) = true).
Proof.
  intros props. unfold props. rewrite findDefaultLayerProps_eq.
  split; [by rewrite length_imap|].
  intros i pair Hi. eexists. split.
  { rewrite list_lookup_imap, Hi. reflexivity. }
  unfold defaultPropAt. simpl. repeat split; try done.
  - by case_decide.
  - by destruct (has _).
  - by destruct (has _).
Qed.

End Defaults.

Section DefaultLayer.
Context `{BL : BaseLayer}.

Lemma renderLayer_None_iff (args : RenderArgs) (L : Layer) :
  (renderLayer args L).2 = None ↔
  altitude (columns (config L)) = None ∨
  (isLayerHovered (id L) (ra_objectHovered args) = true ∧
   ra_objectHovered args = None).
Proof.
  unfold renderLayer, bind, this, lift, ret.
  destruct (altitude (columns (config L))) as [alt|]; simpl; [|by split; [left|]].
  destruct (isLayerHovered (id L) (ra_objectHovered args)).
  - destruct (ra_objectHovered args) as [info|]; simpl.
    + destruct (field _); simpl; split; [done| |done|]; by intros [|[_ ?]].
    + split; [by right|done].
  - destruct (field _); simpl; split; try done; by intros [|[? _]].
Qed.

Lemma renderLayer_primary (args : RenderArgs) (L L' : Layer) (alt : Column)
    (layers : list DeckLayer) :
  altitude (columns (config L)) = Some alt →
  renderLayer args L = (L', Some layers) →
  ∃ p rest, layers = ScatterplotBrushingLayer p :: rest ∧
            sp_id p = id L ∧ sp_pickable p = true ∧
            sp_depthTest p = Some (bool_decide (fieldIdx alt > -1)).
Proof.
  intros Halt. unfold renderLayer, bind, this, lift, ret. rewrite Halt. simpl.
  destruct (isLayerHovered (id L) (ra_objectHovered args)).
  - destruct (ra_objectHovered args) as [info|]; simpl; [|done].
    destruct (field _); simpl; intros [= <- <-]; by eexists _, _.
  - destruct (field _); simpl; intros [= <- <-]; by eexists _, _.
Qed.

(** X15: [renderLayer] throws in exactly two cases, when the columns have
    no altitude entry, and when the layer counts as hovered while there is
    no hovered object; otherwise it returns its layers. In no case does it
    change the layer. *)
Theorem renderLayer_throws_iff (args : RenderArgs) (L : Layer) :
  ((renderLayer args L).2 = None ↔
   altitude (columns (config L)) = None ∨
   (isLayerHovered (id L) (ra_objectHovered args) = true ∧
    ra_objectHovered args = None)) ∧
  (renderLayer args L).1 = L.
Proof. split; [apply renderLayer_None_iff|apply renderLayer_state]. Qed.

(** X16: a layer whose columns are those of props made by
    [findDefaultLayerProps] has no altitude in use: its position accessor
    gives altitude [0] on every row, [renderLayer] does not throw for want
    of an altitude entry, and the primary layer it returns has the depth
    test off, so the circles are flat on the map. *)
Theorem default_layer_is_flat (has : string → bool) (get : string → string)
    (fieldPairs : list FieldPair) (p : Props.t) (L : Layer) (args : RenderArgs) :
  p ∈ findDefaultLayerProps has get fieldPairs →
  columns (config L) = Props.columns p →
  (∀ d, pointPosAccessor (columns (config L)) d !! 2%nat = Some (num 0)) ∧
  ((renderLayer args L).2 = None →
   isLayerHovered (id L) (ra_objectHovered args) = true ∧
   ra_objectHovered args = None) ∧
  (∀ layers, (renderLayer args L).2 = Some layers →
     ∃ primary rest, layers = ScatterplotBrushingLayer primary :: rest ∧
                     sp_depthTest primary = Some false).
Proof.
  rewrite findDefaultLayerProps_eq.
  intros (i & Hi)%list_elem_of_lookup Hcols.
  rewrite list_lookup_imap in Hi.
  destruct (fieldPairs !! i) as [pair|]; [|done]. injection Hi as <-.
  assert (altitude (columns (config L)) =
          Some {| col_value := None; fieldIdx := -1; optional := true |}) as Halt
    by by rewrite Hcols.
  split; [|split].
  - intros d. unfold pointPosAccessor. by rewrite Halt.
  - intros [Hnone|?]%renderLayer_None_iff; [by rewrite Halt in Hnone|done].
  - intros layers Hrun. destruct (renderLayer args L) as [L' r] eqn:Hrender.
    simpl in Hrun. subst r.
    destruct (renderLayer_primary _ _ _ _ _ Halt Hrender)
      as (primary & rest & -> & _ & _ & Hdepth).
    by exists primary, rest.
Qed.

End DefaultLayer.

(** ** Invalidation of the label characters *)

Section LabelInvalidation.
Context `{BL : BaseLayer}.

Lemma getTextMemo_miss tl (L : Layer) :
  getText_cache L !! pointLabelResolver tl = None →
  getTextMemo tl L =
    (set_getText_cache
       (<[pointLabelResolver tl := {| text_ref := nextRef L; text_env := tl |}]>
          (getText_cache L))
       (set_nextRef (S (nextRef L)) L),
     Some {| text_ref := nextRef L; text_env := tl |}).
Proof. unfold getTextMemo, bind, this. by intros ->. Qed.

Section Kept.
Variable I : Layer → Prop.
Hypothesis HI : keptByWrites I.

Lemma getPositionMemo_keeps cols (L : Layer) : I L → I (getPositionMemo cols L).1.
Proof.
  intros HL. destruct (getPosition_cache L !! pointPosResolver cols) as [f|] eqn:Hc.
  - by rewrite (getPositionMemo_hit _ _ _ Hc).
  - rewrite (getPositionMemo_miss _ _ Hc). by apply (kept_position _ HI).
Qed.

Lemma getTextMemo_keeps tl (L : Layer) : I L → I (getTextMemo tl L).1.
Proof.
  intros HL. destruct (getText_cache L !! pointLabelResolver tl) as [g|] eqn:Hc.
  - by rewrite (getTextMemo_hit _ _ _ Hc).
  - rewrite (getTextMemo_miss _ _ Hc). by apply (kept_label _ HI).
Qed.

Lemma updateLayerMeta_keeps allData (L : Layer) : I L → I (updateLayerMeta allData L).1.
Proof.
  intros HL. unfold updateLayerMeta.
  pose proof (getPositionMemo_keeps (columns (config L)) L HL) as H1.
  change (getPositionMemo (columns (config L)) L) with (getPositionAccessor L) in H1.
  destruct (getPositionAccessor L) as [L1 r] eqn:Hpos.
  destruct (getPositionAccessor_run _ _ _ Hpos) as (f & -> & _).
  rewrite (bind_run _ _ _ _ _ Hpos). by apply (kept_bounds _ HI).
Qed.

Lemma formatLayerData_keeps allData filteredIndex old opt (L : Layer) :
  I L → I (formatLayerData allData filteredIndex old opt L).1.
Proof.
  intros HL.
  pose proof (getPositionMemo_keeps (columns (config L)) L HL) as H1.
  change (getPositionMemo (columns (config L)) L) with (getPositionAccessor L) in H1.
  destruct (getPositionAccessor L) as [L1 r] eqn:Hpos. simpl in H1.
  destruct (getPositionAccessor_run _ _ _ Hpos) as (getPosition & -> & _).
  rewrite (formatLayerData_eq _ _ _ _ _ _ _ Hpos).
  set (L2 := if boundsStale old getPosition then _ else _).
  assert (I L2) as H2.
  { unfold L2. destruct (boundsStale old getPosition); [|done].
    by apply (kept_bounds _ HI). }
  clearbody L2.
  assert (I (filterRows allData filteredIndex old opt getPosition L2).1) as H3.
  { destruct (rowsReused old opt getPosition) eqn:Hre.
    - destruct old as [o|]; [|done]. by rewrite (filterRows_reuse _ _ _ _ _ _ Hre).
    - rewrite (filterRows_rebuild _ _ _ _ _ _ Hre). by apply (kept_nextRef _ HI). }
  destruct (filterRows allData filteredIndex old opt getPosition L2)
    as [L3 [data|]] eqn:Hrows;
    [rewrite (bind_run _ _ _ _ _ Hrows)|by rewrite (bind_throw _ _ _ _ Hrows)].
  simpl in H3.
  pose proof (getTextMemo_keeps (textLabel (config L)) L3 H3) as H4.
  destruct (getTextMemo (textLabel (config L)) L3) as [L4 [getText|]] eqn:Htext;
    [rewrite (bind_run _ _ _ _ _ Htext)|by rewrite (bind_throw _ _ _ _ Htext)].
  simpl in H4.
  assert (I (collectCharacters (textLabel (config L)) data old opt getText L4).1) as H5.
  { destruct (charactersReused old opt getText) eqn:Hre.
    - destruct old as [o|]; [|done].
      by rewrite (collectCharacters_reuse _ _ _ _ _ _ Hre).
    - rewrite (collectCharacters_recompute _ _ _ _ _ _ Hre).
      destruct (if field _ is Some _ then _ else _); [|done].
      by apply (kept_nextRef _ HI). }
  destruct (collectCharacters (textLabel (config L)) data old opt getText L4)
    as [L5 [characters|]] eqn:Hchars;
    [by rewrite (bind_run _ _ _ _ _ Hchars)|by rewrite (bind_throw _ _ _ _ Hchars)].
Qed.

End Kept.

Lemma distinctLabels_kept : keptByWrites distinctLabels.
Proof.
  split.
  - intros L [Hr Hi]. split; simpl; [|done].
    intros k g Hg. specialize (Hr k g Hg). lia.
  - by intros L allData f b [].
  - intros L cols _ [Hr Hi]. split; simpl; [|done].
    intros k g Hg. specialize (Hr k g Hg). lia.
  - intros L tl _ [Hr Hi]. split; simpl.
    + intros k g [[<- <-]|[_ Hg]]%lookup_insert_Some; simpl; [lia|].
      specialize (Hr k g Hg). lia.
    + intros k1 k2 g1 g2 [[<- <-]|[? Hg1]]%lookup_insert_Some
        [[<- <-]|[? Hg2]]%lookup_insert_Some; simpl; intros Href.
      * done.
      * specialize (Hr k2 g2 Hg2). lia.
      * specialize (Hr k1 g1 Hg1). lia.
      * eauto.
Qed.

Lemma reachable_distinctLabels (L : Layer) : reachable L → distinctLabels L.
Proof.
  induction 1 as [i cfg m n|L cfg _ IH|L cols _ IH|L tl _ IH|L allData _ IH
                 |L allData filteredIndex old opt _ IH|L args _ IH].
  - split; simpl; intros *; by rewrite lookup_empty.
  - by destruct IH.
  - by apply getPositionMemo_keeps; [apply distinctLabels_kept|].
  - by apply getTextMemo_keeps; [apply distinctLabels_kept|].
  - by apply updateLayerMeta_keeps; [apply distinctLabels_kept|].
  - by apply formatLayerData_keeps; [apply distinctLabels_kept|].
  - by rewrite renderLayer_state.
Qed.

(** X2: a layer that was made by the constructor and then went through any
    configuration edits and any calls of the methods of this file, with any
    arguments and whether or not they threw, has sound accessor caches:
    every cached position accessor was built from a binding with the key
    it is stored under, and every cached label accessor from label settings
    with its key; within each cache, accessors under different keys are
    different functions, allocated in the past. *)
Theorem reachable_layer_has_sound_caches (L : Layer) :
  reachable L → wf L ∧ distinctLabels L.
Proof.
  intros HL. split.
  - by apply reachable_wf.
  - by apply reachable_distinctLabels.
Qed.

(** X17: when, after a pass has returned, the label field is replaced by
    one with another [tableFieldIndex] (or a field is bound where none
    was, or unbound), the next pass works with another label accessor and
    computes the character set again even with [opt.sameData] set: the set
    it returns is a new array that holds, without repetition, exactly the
    characters of the labels the new accessor gives for the rows the pass
    returns. *)
Theorem label_field_change_recomputes_characters allData filteredIndex old opt
    (L L1 L2 : Layer) (out1 out2 : LayerData.t) (tl2 : TextLabel)
    allData2 filteredIndex2 :
  reachable L →
  formatLayerData allData filteredIndex old opt L = (L1, Some out1) →
  tableFieldIndex <$> field tl2 ≠ tableFieldIndex <$> field (textLabel (config L)) →
  formatLayerData allData2 filteredIndex2 (Some out1) {| sameData := true |}
    (restyleLabel tl2 L1) = (L2, Some out2) →
  text_ref (LayerData.getText out2) ≠ text_ref (LayerData.getText out1) ∧
  (nextRef L1 ≤ arr_ref (LayerData.labelCharacterSet out2))%nat ∧
  NoDup (items (LayerData.labelCharacterSet out2)) ∧
  ∀ c, c ∈ items (LayerData.labelCharacterSet out2) ↔
       ∃ d s, d ∈ items (LayerData.data out2) ∧
              applyText (LayerData.getText out2) d = Some s ∧
              c ∈ list_ascii_of_string s.
Proof.
  intros HL Hrun1 Hkey Hrun2.
  assert (reachable L2) as HL2.
  { replace L2 with (formatLayerData allData2 filteredIndex2 (Some out1)
                       {| sameData := true |} (restyleLabel tl2 L1)).1
      by by rewrite Hrun2.
    apply reach_formatLayerData, reach_config.
    replace L1 with (formatLayerData allData filteredIndex old opt L).1
      by by rewrite Hrun1.
    by apply reach_formatLayerData. }
  apply reachable_distinctLabels in HL2.
  destruct (formatLayerData_cached _ _ _ _ _ _ _ Hrun1) as (Hcfg & _ & Htext1).
  destruct (formatLayerData_cached _ _ _ _ _ _ _ Hrun2) as (_ & _ & Htext2).
  change (textLabel (config (restyleLabel tl2 L1))) with tl2 in Htext2.
  destruct (formatLayerData_run allData2 filteredIndex2 (Some out1)
              {| sameData := true |} (restyleLabel tl2 L1)) as [G _].
  rewrite Hrun2 in G. simpl in G.
  assert (text_ref (LayerData.getText out2) ≠ text_ref (LayerData.getText out1))
    as Href.
  { intros Href. apply Hkey.
    apply (label_inj _ HL2 _ _ _ _ Htext2
             (lookup_weaken _ _ _ _ Htext1 (grows_text _ _ G)) Href). }
  split; [done|].
  destruct (formatLayerData_inv _ _ _ _ _ _ _ Hrun2)
    as (L1' & L3 & L4 & Hpos & Hrows & Htext & Hchars & _).
  change (textLabel (config (restyleLabel tl2 L1))) with tl2 in Htext, Hchars.
  rewrite collectCharacters_recompute in Hchars.
  2:{ apply charactersReused_false_iff. right. right. exists out1.
      split; [done|]. congruence. }
  destruct (getPositionAccessor_run _ _ _ Hpos) as (_ & _ & _ & G1 & _).
  destruct (filterRows_run _ _ _ _ _ _ _ _ Hrows) as (G3 & _).
  destruct (getTextMemo_run _ _ _ _ Htext) as (_ & _ & _ & G4 & _).
  assert (nextRef L1 ≤ nextRef L4)%nat as Hnext.
  { etrans; [|apply (grows_ref _ _ G4)]. etrans; [|apply (grows_ref _ _ G3)].
    destruct (boundsStale _ _); apply (grows_ref _ _ G1). }
  destruct (field tl2) as [f|] eqn:Hf2.
  - destruct (map_throw (applyText (LayerData.getText out2))
                (items (LayerData.data out2))) as [textLabels|] eqn:Hmap; [|done].
    injection Hchars as _ <-. cbn [items arr_ref]. split; [done|].
    apply (label_characters _ _ _ Hmap).
  - injection Hchars as _ <-. cbn [items arr_ref]. split; [done|].
    split; [apply NoDup_nil_2|]. intros c. rewrite elem_of_nil. split; [done|].
    intros (d & s & _ & Hs & _).
    apply reachable_wf in HL.
    destruct (formatLayerData_run allData filteredIndex old opt L) as [_ W1].
    rewrite Hrun1 in W1. simpl in W1.
    destruct (formatLayerData_run allData2 filteredIndex2 (Some out1)
                {| sameData := true |} (restyleLabel tl2 L1)) as [_ W2].
    rewrite Hrun2 in W2. simpl in W2.
    pose proof (wf_text_key _ (W2 (restyleLabel_wf _ _ (W1 HL))) _ _ Htext2) as Hk.
    unfold applyText, pointLabelAccessor in Hs. unfold pointLabelResolver in Hk.
    rewrite Hf2 in Hk.
    by destruct (field (text_env (LayerData.getText out2))).
Qed.

End LabelInvalidation.

(** ** The properties at a table of two rows *)

#[local] Existing Instance sampleBase.

(** C1 as it is stated, at a pass that reuses rows: the first pass, with no
    filtered index, returns no rows; the second pass, on the same table and
    accessor with [sameData] set and the filtered indices [[0]], returns the
    rows of the first, so row 0, all of whose coordinates are finite, is not
    among them. *)
Lemma C1_counterexample_stale_rows :
  ∃ L1 out1 L2 out2,
    formatLayerData sampleRows [] None {| sameData := false |}
      (sampleLayer (sampleColumns None) None) = (L1, Some out1) ∧
    formatLayerData sampleRows [0%nat] (Some out1) {| sameData := true |} L1 =
      (L2, Some out2) ∧
    sampleRows !! 0%nat = Some [num 1; num 10] ∧
    forallb Number_isFinite
      (applyPos (LayerData.getPosition out2) {| Datum.data := [num 1; num 10] |}) = true ∧
    items (LayerData.data out2) = [].
Proof.
  eexists _, _, _, _.
  split; [vm_compute; reflexivity|].
  split; [vm_compute; reflexivity|].
  by vm_compute.
Qed.

Lemma C1_witness :
  ∃ L1 f L' out,
    getPositionAccessor (sampleLayer (sampleColumns None) None) = (L1, Some f) ∧
    inRange sampleRows [0; 1]%nat ∧
    formatLayerData sampleRows [0; 1]%nat None {| sameData := false |}
      (sampleLayer (sampleColumns None) None) = (L', Some out) ∧
    Some <$> items (LayerData.data out) = datumAt sampleRows <$> [0%nat].
Proof.
  assert (∃ L1 f, getPositionAccessor (sampleLayer (sampleColumns None) None) =
                  (L1, Some f)) as (L1 & f & Hpos)
    by (eexists _, _; vm_compute; reflexivity).
  assert (inRange sampleRows [0; 1]%nat) as Hin by (repeat constructor).
  destruct (C1_rebuilt_rows_finite_in_order sampleRows [0; 1]%nat None
              {| sameData := false |} (sampleLayer (sampleColumns None) None) L1 f
              (newLayer_wf _ _ _ _) Hin Hpos
              (or_introl eq_refl)) as (L' & out & Hrun & _ & Hrows & _).
  exists L1, f, L', out. repeat split; assumption.
Defined.

Lemma C2_witness :
  ∃ L1 out1 out2,
    formatLayerData sampleRows [0; 1]%nat None {| sameData := false |}
      (sampleLayer (sampleColumns None) (Some sampleField)) = (L1, Some out1) ∧
    formatLayerData sampleRows [0; 1]%nat (Some out1) {| sameData := true |} L1 =
      (L1, Some out2) ∧
    LayerData.data out2 = LayerData.data out1 ∧
    LayerData.labelCharacterSet out2 = LayerData.labelCharacterSet out1.
Proof.
  assert (∃ L1 out1,
    formatLayerData sampleRows [0; 1]%nat None {| sameData := false |}
      (sampleLayer (sampleColumns None) (Some sampleField)) = (L1, Some out1))
    as (L1 & out1 & Hrun) by (eexists _, _; vm_compute; reflexivity).
  destruct (C2_warm_pass_returns_cached_arrays _ _ _ _ _ _ _ Hrun)
    as (out2 & Hrun2 & Hdata & Hchars & _).
  exists L1, out1, out2. repeat split; assumption.
Defined.

Lemma C3_witness :
  let b1 := sampleColumns (Some (column 2)) in
  let b2 := {| lat := {| col_value := Some "latitude"; fieldIdx := 1; optional := false |};
               lng := {| col_value := Some "longitude"; fieldIdx := 0; optional := false |};
               altitude := Some {| col_value := Some "height"; fieldIdx := 2;
                                   optional := true |} |} in
  ∃ L1 f,
    b1 ≠ b2 ∧
    getPositionMemo b1 (sampleLayer b1 None) = (L1, Some f) ∧
    getPositionMemo b2 L1 = (L1, Some f).
Proof.
  intros b1 b2.
  assert (∃ L1 r, getPositionMemo b1 (sampleLayer b1 None) = (L1, r))
    as (L1 & r & Hrun) by (eexists _, _; vm_compute; reflexivity).
  destruct (C3_same_indices_same_accessor b1 b2 _ L1 L1 r eq_refl eq_refl eq_refl
              Hrun (reflexivity _)) as (f & -> & Hrun2).
  exists L1, f. repeat split; [discriminate|assumption..].
Defined.

Lemma C5_witness :
  let cols2 := sampleColumns (Some (column 2)) in
  let table2 := [[num 1; num 10; num 5]; [VNumber NaN; num 20; num 7]] in
  ∃ L1 out1 L2 out2,
    formatLayerData sampleRows [0; 1]%nat None {| sameData := false |}
      (sampleLayer (sampleColumns (Some (column (-1)))) None) = (L1, Some out1) ∧
    formatLayerData table2 [0; 1]%nat (Some out1) {| sameData := true |}
      (bindColumns cols2 L1) = (L2, Some out2) ∧
    pos_ref (LayerData.getPosition out2) ≠ pos_ref (LayerData.getPosition out1) ∧
    metaCalls L2 = (table2, LayerData.getPosition out2) :: metaCalls L1 ∧
    items (LayerData.data out2) = [{| Datum.data := [num 1; num 10; num 5] |}].
Proof.
  intros cols2 table2.
  assert (∃ L1 out1,
    formatLayerData sampleRows [0; 1]%nat None {| sameData := false |}
      (sampleLayer (sampleColumns (Some (column (-1)))) None) = (L1, Some out1))
    as (L1 & out1 & Hrun) by (eexists _, _; vm_compute; reflexivity).
  assert (inRange table2 [0; 1]%nat) as Hin by (repeat constructor).
  destruct (C5_binding_altitude_forces_cold_pass _ _ _ _
              (sampleLayer (sampleColumns (Some (column (-1)))) None) _ _
              (column (-1)) (column 2) cols2 table2 [0; 1]%nat
              (newLayer_wf _ _ _ _) eq_refl eq_refl eq_refl eq_refl Hrun Hin)
    as (L2 & out2 & Hrun2 & Href & Hcalls & _ & Hrows & _).
  exists L1, out1, L2, out2. repeat split; assumption.
Defined.

Lemma C6_witness :
  ∃ L' out,
    formatLayerData sampleRows [0; 1]%nat None {| sameData := false |}
      (sampleLayer (sampleColumns None) (Some sampleField)) = (L', Some out) ∧
    items (LayerData.labelCharacterSet out) = ["1"%char] ∧
    NoDup (items (LayerData.labelCharacterSet out)) ∧
    ∀ c : ascii, c ∈ items (LayerData.labelCharacterSet out) ↔
         ∃ d s, d ∈ items (LayerData.data out) ∧
                applyText (LayerData.getText out) d = Some s ∧
                c ∈ list_ascii_of_string s.
Proof.
  assert (∃ L' out,
    formatLayerData sampleRows [0; 1]%nat None {| sameData := false |}
      (sampleLayer (sampleColumns None) (Some sampleField)) = (L', Some out) ∧
    items (LayerData.labelCharacterSet out) = ["1"%char])
    as (L' & out & Hrun & Hset) by (eexists _, _; vm_compute; split; reflexivity).
  destruct (C6_label_character_set _ _ _ _
              (sampleLayer (sampleColumns None) (Some sampleField)) _ _
              (newLayer_wf _ _ _ _) Hrun
              (or_introl eq_refl)) as (Hnd & Hin & _).
  exists L', out. repeat split; try assumption; apply Hin.
Defined.

Lemma C7_witness :
  ∃ L' out,
    formatLayerData sampleRows [0; 1]%nat None {| sameData := false |}
      (sampleLayer (sampleColumns None) None) = (L', Some out) ∧
    LayerData.getRadius out = Constant (CNumber (Finite (inject_Z 1))) ∧
    LayerData.getFillColor out = Constant (CColor [18; 147; 154]) ∧
    ∀ d, applyAccessor (LayerData.getLineColor out) d = CColor [18; 147; 154].
Proof.
  assert (∃ L' out,
    formatLayerData sampleRows [0; 1]%nat None {| sameData := false |}
      (sampleLayer (sampleColumns None) None) = (L', Some out))
    as (L' & out & Hrun) by (eexists _, _; vm_compute; reflexivity).
  destruct (C7_unbound_channel_constant _ _ _ _ _ _ _ Hrun) as (Hr & Hf & Hl).
  exists L', out. repeat split;
    [assumption|apply (Hr eq_refl)|apply (Hf eq_refl)|apply (Hl eq_refl)].
Defined.

Lemma C10_witness :
  let cAbsent := sampleColumns None in
  let cMinus := sampleColumns (Some (column (-1))) in
  ∃ L1 out1 L2 out2,
    formatLayerData sampleRows [0; 1]%nat None {| sameData := false |}
      (sampleLayer cAbsent None) = (L1, Some out1) ∧
    pointPosResolver cAbsent ≠ pointPosResolver cMinus ∧
    formatLayerData sampleRows [0; 1]%nat (Some out1) {| sameData := true |}
      (bindColumns cMinus L1) = (L2, Some out2) ∧
    pos_ref (LayerData.getPosition out2) ≠ pos_ref (LayerData.getPosition out1) ∧
    (∀ d, applyPos (LayerData.getPosition out2) d =
          applyPos (LayerData.getPosition out1) d) ∧
    metaCalls L2 = (sampleRows, LayerData.getPosition out2) :: metaCalls L1.
Proof.
  intros cAbsent cMinus.
  assert (∃ L1 out1,
    formatLayerData sampleRows [0; 1]%nat None {| sameData := false |}
      (sampleLayer cAbsent None) = (L1, Some out1))
    as (L1 & out1 & Hrun) by (eexists _, _; vm_compute; reflexivity).
  assert (inRange sampleRows [0; 1]%nat) as Hin by (repeat constructor).
  destruct (C10_two_unbound_altitudes_two_accessors _ _ _ _
              (sampleLayer cAbsent None) _ _ cAbsent cMinus (column (-1)) sampleRows [0; 1]%nat
              (newLayer_wf _ _ _ _) eq_refl eq_refl eq_refl eq_refl eq_refl Hrun Hin)
    as (_ & _ & Hkey & _ & Hcold).
  destruct (Hcold cAbsent cMinus (or_introl (conj eq_refl eq_refl)) eq_refl)
    as (L2 & out2 & Hrun2 & Href & Hagree & Hcalls & _).
  exists L1, out1, L2, out2. repeat split; assumption.
Defined.

(** ** The further properties at the table of two rows *)

Lemma reachable_layer_has_sound_caches_witness :
  let L := (formatLayerData sampleRows [0; 1]%nat None {| sameData := false |}
              (sampleLayer (sampleColumns None) (Some sampleField))).1 in
  reachable L ∧ wf L ∧ distinctLabels L.
Proof.
  intros L.
  assert (reachable L) as HL by (apply reach_formatLayerData, reach_new).
  split; [exact HL|]. exact (reachable_layer_has_sound_caches L HL).
Defined.

Lemma memoized_accessors_follow_binding_witness :
  let L := (formatLayerData sampleRows [0; 1]%nat None {| sameData := false |}
              (sampleLayer (sampleColumns None) (Some sampleField))).1 in
  let cols := sampleColumns (Some (column 2)) in
  reachable L ∧
  ∃ f L', getPositionMemo cols L = (L', Some f) ∧
          ∀ d, applyPos f d = pointPosAccessor cols d.
Proof.
  intros L cols.
  assert (reachable L) as HL by (apply reach_formatLayerData, reach_new).
  split; [exact HL|].
  exact (proj1 (memoized_accessors_follow_binding L cols (sampleTextLabel None) HL)).
Defined.


Lemma later_pass_keeps_bounds_witness :
  ∃ L1 out1,
    formatLayerData sampleRows [0; 1]%nat None {| sameData := false |}
      (sampleLayer (sampleColumns None) None) = (L1, Some out1) ∧
    let L2 := (formatLayerData [[num 2; num 3]] [0%nat] (Some out1)
                 {| sameData := false |} L1).1 in
    meta L2 = meta L1 ∧ metaCalls L2 = metaCalls L1.
Proof.
  assert (∃ L1 out1,
    formatLayerData sampleRows [0; 1]%nat None {| sameData := false |}
      (sampleLayer (sampleColumns None) None) = (L1, Some out1))
    as (L1 & out1 & Hrun) by (eexists _, _; vm_compute; reflexivity).
  exists L1, out1. split; [exact Hrun|].
  exact (later_pass_keeps_bounds _ _ _ _ _ _ _ [[num 2; num 3]] [0%nat]
           {| sameData := false |} Hrun).
Defined.

Lemma characters_survive_rebinding_witness :
  ∃ L1 out1 L2 out2,
    formatLayerData sampleRows [0; 1]%nat None {| sameData := false |}
      (sampleLayer (sampleColumns None) (Some sampleField)) = (L1, Some out1) ∧
    formatLayerData sampleRows [0; 1]%nat (Some out1) {| sameData := true |}
      (bindColumns (sampleColumns (Some (column 0))) L1) = (L2, Some out2) ∧
    LayerData.data out2 ≠ LayerData.data out1 ∧
    LayerData.labelCharacterSet out2 = LayerData.labelCharacterSet out1.
Proof.
  assert (∃ L1 out1 L2 out2,
    formatLayerData sampleRows [0; 1]%nat None {| sameData := false |}
      (sampleLayer (sampleColumns None) (Some sampleField)) = (L1, Some out1) ∧
    formatLayerData sampleRows [0; 1]%nat (Some out1) {| sameData := true |}
      (bindColumns (sampleColumns (Some (column 0))) L1) = (L2, Some out2) ∧
    arr_ref (LayerData.data out2) ≠ arr_ref (LayerData.data out1))
    as (L1 & out1 & L2 & out2 & Hrun1 & Hrun2 & Hne).
  { eexists _, _, _, _. split; [vm_compute; reflexivity|].
    split; [vm_compute; reflexivity|]. vm_compute. discriminate. }
  exists L1, out1, L2, out2. split; [exact Hrun1|]. split; [exact Hrun2|].
  split; [congruence|].
  exact (proj2 (characters_survive_rebinding _ _ _ _ _ _ _ _ _ _ _ _ Hrun1 Hrun2)).
Defined.

Lemma rows_of_concatenated_indices_witness :
  ∃ La outa Lb outb Lc outc,
    formatLayerData sampleRows [0%nat] None {| sameData := false |}
      (sampleLayer (sampleColumns None) None) = (La, Some outa) ∧
    formatLayerData sampleRows [1; 0]%nat None {| sameData := false |}
      (sampleLayer (sampleColumns None) None) = (Lb, Some outb) ∧
    formatLayerData sampleRows ([0%nat] ++ [1; 0]%nat) None {| sameData := false |}
      (sampleLayer (sampleColumns None) None) = (Lc, Some outc) ∧
    items (LayerData.data outc) =
      items (LayerData.data outa) ++ items (LayerData.data outb).
Proof.
  assert (∃ L1 f, getPositionAccessor (sampleLayer (sampleColumns None) None) =
                  (L1, Some f)) as (L1 & f & Hpos)
    by (eexists _, _; vm_compute; reflexivity).
  assert (inRange sampleRows [0%nat]) as Hin1 by (repeat constructor).
  assert (inRange sampleRows [1; 0]%nat) as Hin2 by (repeat constructor).
  exact (rows_of_concatenated_indices sampleRows [0%nat] [1; 0]%nat None
           {| sameData := false |} (sampleLayer (sampleColumns None) None) L1 f
           (newLayer_wf _ _ _ _) Hin1 Hin2 Hpos (or_introl eq_refl)).
Defined.

Lemma unbound_lat_or_lng_keeps_no_row_witness :
  let cols := {| lat := column (-1); lng := column 0; altitude := None |} in
  ∃ L' out,
    formatLayerData sampleRows [0; 1]%nat None {| sameData := false |}
      (sampleLayer cols None) = (L', Some out) ∧
    items (LayerData.data out) = [].
Proof.
  intros cols.
  assert (∃ L1 f, getPositionAccessor (sampleLayer cols None) = (L1, Some f))
    as (L1 & f & Hpos) by (eexists _, _; vm_compute; reflexivity).
  assert (inRange sampleRows [0; 1]%nat) as Hin by (repeat constructor).
  apply (unbound_lat_or_lng_keeps_no_row sampleRows [0; 1]%nat None
           {| sameData := false |} (sampleLayer cols None) L1 f
           (newLayer_wf _ _ _ _) Hin Hpos (or_introl eq_refl)).
  left. simpl. lia.
Defined.

Lemma rows_without_altitude_witness :
  let cols := sampleColumns (Some (column (-3))) in
  ∃ L' out,
    formatLayerData sampleRows [0; 1]%nat None {| sameData := false |}
      (sampleLayer cols None) = (L', Some out) ∧
    Some <$> items (LayerData.data out) = datumAt sampleRows <$> [0%nat].
Proof.
  intros cols.
  assert (∃ L1 f, getPositionAccessor (sampleLayer cols None) = (L1, Some f))
    as (L1 & f & Hpos) by (eexists _, _; vm_compute; reflexivity).
  assert (inRange sampleRows [0; 1]%nat) as Hin by (repeat constructor).
  apply (rows_without_altitude sampleRows [0; 1]%nat None
           {| sameData := false |} (sampleLayer cols None) L1 f
           (newLayer_wf _ _ _ _) Hin Hpos (or_introl eq_refl)).
  right. exists (column (-3)). split; [reflexivity|simpl; lia].
Defined.

Lemma label_of_missing_column_witness :
  let f := {| field_name := "missing"; tableFieldIndex := 5 |} in
  ∃ L' out,
    formatLayerData sampleRows [0; 1]%nat None {| sameData := false |}
      (sampleLayer (sampleColumns None) (Some f)) = (L', Some out) ∧
    items (LayerData.labelCharacterSet out) = undefinedCharacters.
Proof.
  intros f.
  assert (∃ L' out,
    formatLayerData sampleRows [0; 1]%nat None {| sameData := false |}
      (sampleLayer (sampleColumns None) (Some f)) = (L', Some out) ∧
    items (LayerData.data out) = [{| Datum.data := [num 1; num 10] |}])
    as (L' & out & Hrun & Hrows).
  { eexists _, _. split; vm_compute; reflexivity. }
  exists L', out. split; [exact Hrun|].
  apply (label_of_missing_column sampleRows [0; 1]%nat None {| sameData := false |}
           (sampleLayer (sampleColumns None) (Some f)) L' out f
           (newLayer_wf _ _ _ _) Hrun (or_introl eq_refl) eq_refl).
  - rewrite Hrows. intros d ->%list_elem_of_singleton. right. simpl. lia.
  - by rewrite Hrows.
Defined.

Lemma restyled_label_keeps_pass_warm_witness :
  let tl2 := {| field := Some {| field_name := "other"; tableFieldIndex := 1 |};
                label_color := [0; 0; 0]; label_size := 30;
                label_offset := [2; 2]; label_anchor := "end" |} in
  ∃ L1 out1 out2,
    formatLayerData sampleRows [0; 1]%nat None {| sameData := false |}
      (sampleLayer (sampleColumns None) (Some sampleField)) = (L1, Some out1) ∧
    formatLayerData sampleRows [0; 1]%nat (Some out1) {| sameData := true |}
      (restyleLabel tl2 L1) = (restyleLabel tl2 L1, Some out2) ∧
    LayerData.data out2 = LayerData.data out1 ∧
    LayerData.labelCharacterSet out2 = LayerData.labelCharacterSet out1.
Proof.
  intros tl2.
  assert (∃ L1 out1,
    formatLayerData sampleRows [0; 1]%nat None {| sameData := false |}
      (sampleLayer (sampleColumns None) (Some sampleField)) = (L1, Some out1))
    as (L1 & out1 & Hrun) by (eexists _, _; vm_compute; reflexivity).
  destruct (restyled_label_keeps_pass_warm sampleRows [0; 1]%nat None
              {| sameData := false |}
              (sampleLayer (sampleColumns None) (Some sampleField)) L1 out1 tl2
              sampleRows [0; 1]%nat Hrun eq_refl)
    as (out2 & Hrun2 & Hdata & Hchars & _).
  exists L1, out1, out2. repeat split; assumption.
Defined.

Lemma default_layer_is_flat_witness :
  let pairs := [{| defaultName := EmptyString; pair_lat := column 1;
                   pair_lng := column 0 |}] in
  let p := {| Props.label := "Point"; Props.color := None;
              Props.isVisible := Some true;
              Props.columns := sampleColumns
                (Some {| col_value := None; fieldIdx := -1; optional := true |}) |} in
  p ∈ findDefaultLayerProps (λ _, false) (λ _, EmptyString) pairs ∧
  ∀ d, pointPosAccessor (Props.columns p) d !! 2%nat = Some (num 0).
Proof.
  intros pairs p.
  assert (p ∈ findDefaultLayerProps (λ _, false) (λ _, EmptyString) pairs) as Hp
    by apply list_elem_of_here.
  split; [exact Hp|].
  exact (proj1 (default_layer_is_flat (λ _, false) (λ _, EmptyString) pairs p
                  (sampleLayer (Props.columns p) None)
                  {| ra_data := descriptor (sampleConfig (Props.columns p) None)
                                  {| arr_ref := 0; items := [] |}
                                  {| arr_ref := 1; items := [] |}
                                  {| pos_ref := 2; pos_env := Props.columns p |}
                                  {| text_ref := 3; text_env := sampleTextLabel None |};
                     ra_idx := 0; ra_layerInteraction := tt;
                     ra_objectHovered := None; ra_mapState := 0;
                     ra_interactionConfig :=
                       {| brush := {| enabled := false;
                                      brush_size := Finite (inject_Z 1) |} |} |}
                  Hp eq_refl)).
Defined.

Lemma label_field_change_recomputes_characters_witness :
  let tl2 := sampleTextLabel (Some {| field_name := "lat"; tableFieldIndex := 2 |}) in
  ∃ L1 out1 L2 out2,
    formatLayerData sampleRows [0; 1]%nat None {| sameData := false |}
      (sampleLayer (sampleColumns None) (Some sampleField)) = (L1, Some out1) ∧
    formatLayerData sampleRows [0; 1]%nat (Some out1) {| sameData := true |}
      (restyleLabel tl2 L1) = (L2, Some out2) ∧
    text_ref (LayerData.getText out2) ≠ text_ref (LayerData.getText out1) ∧
    NoDup (items (LayerData.labelCharacterSet out2)).
Proof.
  intros tl2.
  assert (∃ L1 out1 L2 out2,
    formatLayerData sampleRows [0; 1]%nat None {| sameData := false |}
      (sampleLayer (sampleColumns None) (Some sampleField)) = (L1, Some out1) ∧
    formatLayerData sampleRows [0; 1]%nat (Some out1) {| sameData := true |}
      (restyleLabel tl2 L1) = (L2, Some out2))
    as (L1 & out1 & L2 & out2 & Hrun1 & Hrun2).
  { eexists _, _, _, _. split; vm_compute; reflexivity. }
  destruct (label_field_change_recomputes_characters sampleRows [0; 1]%nat None
              {| sameData := false |}
              (sampleLayer (sampleColumns None) (Some sampleField)) L1 L2 out1 out2
              tl2 sampleRows [0; 1]%nat (reach_new _ _ _ _) Hrun1
              ltac:(discriminate) Hrun2) as (Href & _ & Hnd & _).
  exists L1, out1, L2, out2. repeat split; assumption.
Defined.

Lemma renderLayer_sublayers_witness :
  let L := sampleLayer (sampleColumns (Some (column (-1)))) (Some sampleField) in
  let args :=
    {| ra_data := descriptor (config L)
                    {| arr_ref := 0; items := [] |} {| arr_ref := 1; items := [] |}
                    {| pos_ref := 2; pos_env := columns (config L) |}
                    {| text_ref := 3; text_env := textLabel (config L) |};
       ra_idx := 0; ra_layerInteraction := tt;
       ra_objectHovered :=
         Some {| object := {| Datum.data := [num 1; num 10] |}; picked := true;
                 picked_layer := Some "point-1" |};
       ra_mapState := 0;
       ra_interactionConfig :=
         {| brush := {| enabled := false; brush_size := Finite (inject_Z 1) |} |} |} in
  ∃ layers, renderLayer args L = (L, Some layers) ∧ length layers = 3%nat.
Proof.
  intros L args.
  destruct (renderLayer_sublayers args L (column (-1)) eq_refl)
    as (primary & hover & text & Hrun & _ & _ & _ & _ & Hlen).
  { intros _. by eexists. }
  exists (ScatterplotBrushingLayer primary :: hover ++ text).
  split; [exact Hrun|exact Hlen].
Defined.
